(** * Supply-chain provenance graph builder

    A shallow embedding of [build_supply_chain_graph] and its nested
    [trace_to_roots] from [backend/posts/router.py], with the properties
    of the graph it builds: indexing with last-write-wins duplicates,
    root classification, breadth-first depths with the fallback pass for
    unreached records, and the backward lineage walk. *)

From Stdlib Require Import ZArith Lia.
From stdpp Require Import base strings gmap sets list sorting pretty.

#[local] Set Warnings "-clear-no-such-hyp".

Local Open Scope string_scope.
Local Open Scope list_scope.
Local Open Scope nat_scope.

(** ** Results of fallible code *)

(** [crate_map[k]] raises [KeyError] on an absent key.  [OutOfFuel] is
    the budget of the two loops whose termination is not structural (the
    breadth-first queue and the recursive walk); the section on
    termination shows that the budgets handed out by
    [build_supply_chain_graph] are never exhausted.  Where the budget of
    the walk is the interpreter's recursion limit
    ([build_supply_chain_graph_within]), [OutOfFuel] is Python's
    [RecursionError]. *)
Inductive exn :=
  | KeyError (k : string)
  | OutOfFuel.

Inductive result (A : Type) :=
  | Ok (a : A)
  | Raise (e : exn).
Arguments Ok {A} a.
Arguments Raise {A} e.

Global Instance result_bind : MBind result := λ A B f r,
  match r with
  | Ok a => f a
  | Raise e => Raise e
  end.

Fixpoint foldlM {A B} (f : A → B → result A) (a : A) (l : list B) : result A :=
  match l with
  | [] => Ok a
  | b :: l' => a' ← f a b ; foldlM f a' l'
  end.

(** ** Python dictionaries

    A [dict] keeps its keys in insertion order, and assigning to a key
    that is already there replaces the value where it stands.  The
    fallback pass iterates over [crate_map] while reading depths it has
    just written, so the order is part of the model. *)
Definition dict (V : Type) := list (string * V).

Fixpoint dict_get {V} (d : dict V) (k : string) : option V :=
  match d with
  | [] => None
  | (k', v) :: d' => if decide (k' = k) then Some v else dict_get d' k
  end.

Fixpoint dict_set {V} (d : dict V) (k : string) (v : V) : dict V :=
  match d with
  | [] => [(k, v)]
  | (k', v') :: d' =>
      if decide (k' = k) then (k, v) :: d' else (k', v') :: dict_set d' k v
  end.

Definition dict_keys {V} (d : dict V) : list string := d.*1.

(** [d[k]] *)
Definition dict_item {V} (d : dict V) (k : string) : result V :=
  match dict_get d k with
  | Some v => Ok v
  | None => Raise (KeyError k)
  end.

(** ** Data model *)

(** One entry of the list returned by [fetch_all_crate_accounts]. *)
Module CrateDict.
Record t := {
  pubkey : string;
  authority : string;
  crate_id : string;
  weight : Z;
  timestamp : Z;
  hash : string;
  ipfs_cid : string;
  parent_crates : list string;
  child_crates : list string;
  parent_weights : list Z;
  split_distribution : option (list Z);
  operation_type : string
}.
End CrateDict.

Record CrateNode := {
  pubkey : string;
  crate_id : string;
  authority : string;
  weight : Z;
  timestamp : Z;
  hash : string;
  ipfs_cid : string;
  operation_type : string;
  parent_crates : list string;
  child_crates : list string;
  parent_weights : list Z;
  split_distribution : option (list Z);
  is_root : bool;
  depth : Z
}.

Record SupplyChainGraph := {
  total_crates : nat;
  root_crates : list string;
  crates : dict CrateNode;
  lineages : dict (list string)
}.

(** [node.depth = d] *)
Definition set_depth (node : CrateNode) (d : Z) : CrateNode :=
  {| pubkey := pubkey node; crate_id := crate_id node;
     authority := authority node; weight := weight node;
     timestamp := timestamp node; hash := hash node;
     ipfs_cid := ipfs_cid node; operation_type := operation_type node;
     parent_crates := parent_crates node; child_crates := child_crates node;
     parent_weights := parent_weights node;
     split_distribution := split_distribution node;
     is_root := is_root node; depth := d |}.

(** [node.is_root = b] *)
Definition set_is_root (node : CrateNode) (b : bool) : CrateNode :=
  {| pubkey := pubkey node; crate_id := crate_id node;
     authority := authority node; weight := weight node;
     timestamp := timestamp node; hash := hash node;
     ipfs_cid := ipfs_cid node; operation_type := operation_type node;
     parent_crates := parent_crates node; child_crates := child_crates node;
     parent_weights := parent_weights node;
     split_distribution := split_distribution node;
     is_root := b; depth := depth node |}.

(** ** First pass: create all nodes *)

Definition make_node (crate_data : CrateDict.t) : CrateNode :=
  {| pubkey := CrateDict.pubkey crate_data;
     crate_id := CrateDict.crate_id crate_data;
     authority := CrateDict.authority crate_data;
     weight := CrateDict.weight crate_data;
     timestamp := CrateDict.timestamp crate_data;
     hash := CrateDict.hash crate_data;
     ipfs_cid := CrateDict.ipfs_cid crate_data;
     operation_type := CrateDict.operation_type crate_data;
     parent_crates := CrateDict.parent_crates crate_data;
     child_crates := CrateDict.child_crates crate_data;
     parent_weights := CrateDict.parent_weights crate_data;
     split_distribution := CrateDict.split_distribution crate_data;
     is_root := Nat.eqb (length (CrateDict.parent_crates crate_data)) 0;
     depth := 0 |}.

Definition index_step (st : dict CrateNode * gset string)
    (crate_data : CrateDict.t) : dict CrateNode * gset string :=
  let '(crate_map, root_crates) := st in
  let node := make_node crate_data in
  (dict_set crate_map (pubkey node) node,
   if is_root node then root_crates ∪ {[pubkey node]} else root_crates).

Definition first_pass (crates : list CrateDict.t)
    : dict CrateNode * gset string :=
  foldl index_step ([], ∅) crates.

(** ** Second pass: breadth-first depths *)

Definition bfs_state : Type :=
  dict CrateNode * gset string * list (string * Z).

(** Seeding the queue with one root. *)
Definition seed_step (st : bfs_state) (root_pubkey : string)
    : result bfs_state :=
  let '(crate_map, visited, queue) := st in
  node ← dict_item crate_map root_pubkey ;
  Ok (dict_set crate_map root_pubkey (set_depth node 0),
      visited ∪ {[root_pubkey]},
      queue ++ [(root_pubkey, 0%Z)]).

(** The body of [for child_pubkey in current_node.child_crates]. *)
Definition visit_child (depth : Z) (st : bfs_state) (child_pubkey : string)
    : bfs_state :=
  let '(crate_map, visited, queue) := st in
  match dict_get crate_map child_pubkey with
  | Some child_node =>
      if decide (child_pubkey ∈ visited) then st
      else (dict_set crate_map child_pubkey
              (set_depth child_node (depth + 1)),
            visited ∪ {[child_pubkey]},
            queue ++ [(child_pubkey, (depth + 1)%Z)])
  | None => st
  end.

(** [while queue: ...]; one unit of fuel per [popleft]. *)
Fixpoint bfs (fuel : nat) (st : bfs_state)
    : result (dict CrateNode * gset string) :=
  let '(crate_map, visited, queue) := st in
  match queue with
  | [] => Ok (crate_map, visited)
  | (current_pubkey, depth) :: queue' =>
      match fuel with
      | O => Raise OutOfFuel
      | S fuel' =>
          current_node ← dict_item crate_map current_pubkey ;
          bfs fuel' (foldl (visit_child depth) (crate_map, visited, queue')
                       (child_crates current_node))
      end
  end.

(** ** Unvisited nodes *)

(** [min(xs, default=d)] *)
Definition min_default (xs : list Z) (default : Z) : Z :=
  match xs with
  | [] => default
  | x :: xs' => foldl Z.min x xs'
  end.

(** The depths of the listed parents that are in [crate_map]. *)
Definition parent_depths (crate_map : dict CrateNode) (node : CrateNode)
    : list Z :=
  omap (λ p, depth <$> dict_get crate_map p) (parent_crates node).

(** The body of [for pubkey, node in crate_map.items()]; [node] is the
    object stored under [pubkey], read where the loop stands. *)
Definition fallback_step (visited : gset string)
    (st : dict CrateNode * gset string) (pubkey : string)
    : dict CrateNode * gset string :=
  let '(crate_map, root_crates) := st in
  match dict_get crate_map pubkey with
  | Some node =>
      if decide (pubkey ∈ visited) then st
      else
        match parent_crates node with
        | _ :: _ =>
            let min_parent_depth :=
              min_default (parent_depths crate_map node) (-1) in
            (dict_set crate_map pubkey
               (set_depth node
                  (if (0 <=? min_parent_depth)%Z
                   then (min_parent_depth + 1)%Z else 0%Z)),
             root_crates)
        | [] =>
            (dict_set crate_map pubkey
               (set_depth (set_is_root node true) 0),
             root_crates ∪ {[pubkey]})
        end
  | None => st
  end.

Definition fallback_pass (crate_map : dict CrateNode)
    (visited root_crates : gset string) : dict CrateNode * gset string :=
  foldl (fallback_step visited) (crate_map, root_crates)
    (dict_keys crate_map).

(** ** Third pass: lineage paths *)

(** [trace_to_roots(pubkey, visited_path)].  Every recursive call is
    given a copy of [visited_path] with [pubkey] added, so the set is
    passed by value; one unit of fuel per level of recursion. *)
Fixpoint trace_to_roots (fuel : nat) (crate_map : dict CrateNode)
    (pubkey : string) (visited_path : gset string)
    : result (list (list string)) :=
  match fuel with
  | O => Raise OutOfFuel
  | S fuel' =>
      if decide (pubkey ∈ visited_path) then Ok []
      else
        match dict_get crate_map pubkey with
        | None => Ok []
        | Some node =>
            if is_root node then Ok [[pubkey]]
            else
              match parent_crates node with
              | [] => Ok [[pubkey]]
              | _ :: _ =>
                  all_paths ←
                    foldlM
                      (λ all_paths parent_pubkey,
                         parent_paths ←
                           trace_to_roots fuel' crate_map parent_pubkey
                             (visited_path ∪ {[pubkey]}) ;
                         Ok (all_paths ++
                             ((λ parent_path, pubkey :: parent_path) <$>
                                filter (λ parent_path, parent_path ≠ [])
                                  parent_paths)))
                      [] (parent_crates node) ;
                  match all_paths with
                  | [] => Ok [[pubkey]]
                  | _ :: _ => Ok all_paths
                  end
              end
        end
  end.

(** [min(paths, key=len)]: the first path of least length. *)
Definition shortest_first (path : list string) (paths : list (list string))
    : list string :=
  foldl (λ best p, if length p <? length best then p else best) path paths.

Definition choose_lineage (pubkey : string) (paths : list (list string))
    : list string :=
  match paths with
  | [] => [pubkey]
  | path :: paths' => shortest_first path paths'
  end.

Definition lineage_step (fuel : nat) (crate_map : dict CrateNode)
    (lineages : dict (list string)) (pubkey : string)
    : result (dict (list string)) :=
  paths ← trace_to_roots fuel crate_map pubkey ∅ ;
  Ok (dict_set lineages pubkey (choose_lineage pubkey paths)).

(** The loop over the keys of [crate_map].  The walk is handed one level
    of recursion per key plus one, which is all it can use
    ([trace_to_roots_total]); the interpreter's own limit is the subject
    of [third_pass_within] below. *)
Definition third_pass (crate_map : dict CrateNode)
    : result (dict (list string)) :=
  foldlM (lineage_step (S (length crate_map)) crate_map) []
    (dict_keys crate_map).

(** ** The builder

    [root_crates] is a Python set; [elements] enumerates it in one fixed
    order where Python promises none.  [second_pass_order_irrelevant]
    shows that the node map and the visited set after the search are the
    same for every order, and the claims speak of the root set only as a
    set. *)

Definition build_supply_chain_graph (crates : list CrateDict.t)
    : result SupplyChainGraph :=
  let '(crate_map, root_crates) := first_pass crates in
  seeded ← foldlM seed_step (crate_map, ∅, []) (elements root_crates) ;
  '(crate_map, visited) ← bfs (length crate_map) seeded ;
  let '(crate_map, root_crates) :=
    fallback_pass crate_map visited root_crates in
  lineages ← third_pass crate_map ;
  Ok {| total_crates := length crate_map;
        root_crates := elements root_crates;
        crates := crate_map;
        lineages := lineages |}.

(** ** The interpreter's recursion limit

    [trace_to_roots] is a recursive Python function, and the interpreter
    allows [sys.getrecursionlimit()] frames on its stack: 1000 unless
    the process raises the limit, which this code never does, less the
    frames already there when the builder is called.  [limit] is the
    number of nested calls of [trace_to_roots] the interpreter still
    allows when the third pass starts.  A walk that needs more raises
    [RecursionError], which nothing in the builder catches; [OutOfFuel]
    out of the walk stands for it.

    [build_supply_chain_graph] above hands the walk one level per key
    plus one, which is all it can use: it is the builder on an
    interpreter whose limit the walk does not reach.  Whenever the
    builder returns a graph within a limit, this is the graph
    ([build_within_Ok]). *)



(** ** Scenarios *)

Definition record (key : string) (parents children : list string)
    : CrateDict.t :=
  {| CrateDict.pubkey := key; CrateDict.authority := "owner";
     CrateDict.crate_id := "crate-" +:+ key; CrateDict.weight := 1000;
     CrateDict.timestamp := 0; CrateDict.hash := "";
     CrateDict.ipfs_cid := ""; CrateDict.parent_crates := parents;
     CrateDict.child_crates := children; CrateDict.parent_weights := [];
     CrateDict.split_distribution := None;
     CrateDict.operation_type := "Created" |}.

Definition scenario_A : list CrateDict.t :=
  [record "A" [] ["B"]; record "B" ["A"] ["C"]; record "C" ["B"] []].

Definition scenario_B (parents_of_D : list string) : list CrateDict.t :=
  [record "A" [] ["B"; "C"]; record "B" ["A"] ["D"];
   record "C" ["A"] ["D"]; record "D" parents_of_D []].

Definition scenario_C : list CrateDict.t :=
  [record "E" ["missing-key"] []].

Definition scenario_D : list CrateDict.t :=
  [record "F" ["G"] ["G"]; record "G" ["F"] ["F"]].

(** ** Reading a built graph *)

Definition node_of (g : SupplyChainGraph) (k : string) : option CrateNode :=
  dict_get (crates g) k.

Definition lineage_of (g : SupplyChainGraph) (k : string)
    : option (list string) :=
  dict_get (lineages g) k.

Definition depth_of (crate_map : dict CrateNode) (k : string) : Z :=
  default 0%Z (depth <$> dict_get crate_map k).

(** ** The two endpoints that serve the graph

    [get_all_crates] and [get_crate_history] await
    [fetch_all_crate_accounts], which talks to the ledger, and then work
    on the list it returns.  The handlers are modelled on the outcome of
    that call: the list, or the text of the exception it raised.  The
    [current_user] dependency has run before the body and is not used by
    it.  The fetched list is called [records] where the source calls it
    [crates], the name of a field of the graph.

    The handlers are modelled on [build_supply_chain_graph], that is for
    the runs in which the walk stays within the interpreter's recursion
    limit.  Beyond it the builder raises [RecursionError], which the
    [except Exception] of either handler turns into a 500; the
    statements about the handlers that depend on it are made for the
    lists on which [build_supply_chain_graph_within] returns. *)
Inductive fetch_outcome :=
  | Fetched (crates : list CrateDict.t)
  | FetchRaised (str_e : string).

(** What a handler hands back: a response body, or an [HTTPException]. *)
Inductive http (A : Type) :=
  | Respond (body : A)
  | HTTPException (status_code : nat) (detail : string).
Arguments Respond {A} body.
Arguments HTTPException {A} status_code detail.

(** [str(e)] for the exceptions of the builder.  A [KeyError] prints the
    [repr] of its key; the budgets [build_supply_chain_graph] hands out
    are never exhausted and print as nothing. *)
Definition str_exn (e : exn) : string :=
  match e with
  | KeyError k => "'" +:+ k +:+ "'"
  | OutOfFuel => ""
  end.

Module GetAllCratesResponse.
Record t := {
  success : bool;
  message : string;
  graph : SupplyChainGraph
}.
End GetAllCratesResponse.

Module CrateHistoryResponse.
Record t := {
  success : bool;
  message : string;
  crate_pubkey : string;
  current_crate : CrateNode;
  lineage_path : list string;
  history : list CrateNode;
  root_crate : CrateNode;
  depth : Z;
  is_root : bool
}.
End CrateHistoryResponse.


Definition get_crate_history (crate_pubkey : string)
    (fetched : fetch_outcome) : http CrateHistoryResponse.t :=
  match fetched with
  | FetchRaised str_e =>
      HTTPException 500 ("Failed to fetch crate history: " +:+ str_e)
  | Fetched [] => HTTPException 404 "No crates found in the supply chain"
  | Fetched records =>
      match build_supply_chain_graph records with
      | Ok graph =>
          match dict_get (crates graph) crate_pubkey with
          | None =>
              HTTPException 404 ("Crate not found: " +:+ crate_pubkey)
          | Some current_crate =>
              let lineage_path :=
                default [crate_pubkey]
                  (dict_get (lineages graph) crate_pubkey) in
              let history_path := reverse lineage_path in
              let history :=
                omap (dict_get (crates graph)) history_path in
              let root_crate :=
                match history with
                | first :: _ => first
                | [] => current_crate
                end in
              Respond
                {| CrateHistoryResponse.success := true;
                   CrateHistoryResponse.message :=
                     "Successfully retrieved history for crate " +:+
                     crate_id current_crate;
                   CrateHistoryResponse.crate_pubkey := crate_pubkey;
                   CrateHistoryResponse.current_crate := current_crate;
                   CrateHistoryResponse.lineage_path := lineage_path;
                   CrateHistoryResponse.history := history;
                   CrateHistoryResponse.root_crate := root_crate;
                   CrateHistoryResponse.depth := depth current_crate;
                   CrateHistoryResponse.is_root := is_root current_crate |}
          end
      | Raise e =>
          HTTPException 500
            ("Failed to fetch crate history: " +:+ str_exn e)
      end
  end.

(** * Vocabulary of the proofs and of the claims *)

(** ** Fields the later passes never write

    After the first pass the only writes are to [depth] (second pass and
    the pass over the unvisited nodes) and to [is_root] (that pass, on a
    record with no parents). *)

(** A node with its depth forgotten. *)
Definition static (node : CrateNode) : CrateNode := set_depth node 0.

(** An index with every depth forgotten. *)
Definition strip (crate_map : dict CrateNode) : dict CrateNode :=
  prod_map id static <$> crate_map.

(** Two indexes that hold the same records under the same keys, whatever
    the order of the keys and the depths written so far. *)
Definition same_nodes (cm cm' : dict CrateNode) : Prop :=
  ∀ k, static <$> dict_get cm k = static <$> dict_get cm' k.

(** ** The index after the first pass *)

(** The record that ends up under a key: the last one carrying it. *)
Definition last_with_key (k : string) (crates : list CrateDict.t)
    : option CrateDict.t :=
  last (filter (λ c, CrateDict.pubkey c = k) crates).

(** What the later passes rely on. *)
Record wf_index (crate_map : dict CrateNode) (root_crates : gset string)
    : Prop := {
  wf_NoDup : NoDup (dict_keys crate_map);
  wf_pubkey k node : dict_get crate_map k = Some node → pubkey node = k;
  wf_is_root k node :
    dict_get crate_map k = Some node →
    is_root node = Nat.eqb (length (parent_crates node)) 0;
  wf_root_in k node :
    dict_get crate_map k = Some node → is_root node = true →
    k ∈ root_crates;
  wf_roots_keys r : r ∈ root_crates → is_Some (dict_get crate_map r)
}.

(** What the first pass guarantees about the root flags, in a form that
    survives the writes to [depth]. *)
Definition roots_ok (cm : dict CrateNode) (roots : gset string) : Prop :=
  ∀ k node, dict_get cm k = Some node →
    is_root node = Nat.eqb (length (parent_crates node)) 0 ∧
    (is_root node = true → k ∈ roots).

(** The keys of an index, as a set. *)
Definition key_set (crate_map : dict CrateNode) : gset string :=
  list_to_set (dict_keys crate_map).

(** ** Forward reachability *)

(** A forward edge the search can follow: [c] is listed as a child of
    [u], and both are in the index. *)
Definition cedge (crate_map : dict CrateNode) (u c : string) : Prop :=
  ∃ node, dict_get crate_map u = Some node ∧ c ∈ child_crates node ∧
          is_Some (dict_get crate_map c).

(** [creach crate_map seeds k n]: some forward path of [n] edges leads
    from a seed to [k]. *)
Inductive creach (crate_map : dict CrateNode) (seeds : gset string)
    : string → nat → Prop :=
  | creach_seed k : k ∈ seeds → creach crate_map seeds k 0
  | creach_step u c n :
      creach crate_map seeds u n → cedge crate_map u c →
      creach crate_map seeds c (S n).

(** The forward search on a snapshot reaches [k]: a forward path leads
    to it from the key of a record that lists no parents, along the
    child links of the records that end up in the index. *)
Definition reached (records : list CrateDict.t) (k : string) : Prop :=
  ∃ n, creach (first_pass records).1 (first_pass records).2 k n.

(** ** Invariants of the search *)

(** How a state relates to an earlier one of the same inner loop, run for
    a node popped at depth [d]. *)
Record grows (d : Z) (cm : dict CrateNode) (visited : gset string)
    (queue : list (string * Z)) (st' : bfs_state) : Prop := {
  grows_strip : strip st'.1.1 = strip cm;
  grows_visited : visited ⊆ st'.1.2;
  grows_keys k : k ∈ st'.1.2 → k ∉ visited → is_Some (dict_get cm k);
  grows_depth k :
    depth_of st'.1.1 k =
      if decide (k ∈ st'.1.2 ∧ k ∉ visited) then (d + 1)%Z
      else depth_of cm k;
  grows_queue :
    ∃ new, st'.2 = queue ++ new ∧
      (∀ kd, kd ∈ new →
         kd.2 = (d + 1)%Z ∧ kd.1 ∈ st'.1.2 ∧ kd.1 ∉ visited) ∧
      (∀ k, k ∈ st'.1.2 → k ∉ visited → k ∈ new.*1);
  grows_measure :
    length st'.2 + size (key_set cm ∖ st'.1.2) =
      length queue + size (key_set cm ∖ visited)
}.

(** The invariant of [while queue], for a search started on [cm0] from
    [seeds]. *)
Record bfs_inv (cm0 : dict CrateNode) (seeds : gset string)
    (cm : dict CrateNode) (visited : gset string)
    (queue : list (string * Z)) : Prop := {
  inv_strip : strip cm = strip cm0;
  inv_visited_keys k : k ∈ visited → is_Some (dict_get cm0 k);
  inv_queue k d : (k, d) ∈ queue → k ∈ visited ∧ depth_of cm k = d;
  inv_sorted : StronglySorted Z.le (queue.*2);
  inv_level v k d :
    v ∈ visited → (k, d) ∈ queue → (depth_of cm v ≤ d + 1)%Z;
  inv_closed u c :
    u ∈ visited → u ∉ queue.*1 → cedge cm0 u c →
    c ∈ visited ∧ (depth_of cm c ≤ depth_of cm u + 1)%Z;
  inv_sound v :
    v ∈ visited → ∃ n, creach cm0 seeds v n ∧ depth_of cm v = Z.of_nat n;
  inv_seeds s : s ∈ seeds → s ∈ visited ∧ depth_of cm s = 0%Z;
  inv_unvisited k : k ∉ visited → depth_of cm k = depth_of cm0 k
}.

(** ** The backward walk *)

(** The body of a loop that runs [F] on each element and appends what
    [G] makes of the result. *)
Definition collect_step {A B C : Type} (F : B → result C) (G : C → list A)
    (acc : list A) (b : B) : result (list A) :=
  r ← F b; Ok (acc ++ G r).

(** The part of a parent's paths that a node keeps, each with the node
    put in front. *)
Definition extend (pubkey : string) (parent_paths : list (list string))
    : list (list string) :=
  (λ parent_path, pubkey :: parent_path) <$>
    filter (λ parent_path, parent_path ≠ []) parent_paths.

(** The five ways a call can return. *)
Inductive trace_case (fuel : nat) (cm : dict CrateNode) (k : string)
    (vp : gset string) : list (list string) → Prop :=
  | trace_cycle : k ∈ vp → trace_case fuel cm k vp []
  | trace_absent : k ∉ vp → dict_get cm k = None → trace_case fuel cm k vp []
  | trace_root node :
      k ∉ vp → dict_get cm k = Some node →
      is_root node = true ∨ parent_crates node = [] →
      trace_case fuel cm k vp [[k]]
  | trace_fallback node rs :
      k ∉ vp → dict_get cm k = Some node →
      is_root node = false → parent_crates node ≠ [] →
      Forall2 (λ p r, trace_to_roots fuel cm p (vp ∪ {[k]}) = Ok r)
        (parent_crates node) rs →
      concat (extend k <$> rs) = [] →
      trace_case fuel cm k vp [[k]]
  | trace_parents node rs :
      k ∉ vp → dict_get cm k = Some node →
      is_root node = false → parent_crates node ≠ [] →
      Forall2 (λ p r, trace_to_roots fuel cm p (vp ∪ {[k]}) = Ok r)
        (parent_crates node) rs →
      concat (extend k <$> rs) ≠ [] →
      trace_case fuel cm k vp (concat (extend k <$> rs)).

(** A path that steps from each key to one of its listed parents. *)
Inductive parent_chain (cm : dict CrateNode) : list string → Prop :=
  | chain_one k : parent_chain cm [k]
  | chain_cons k p rest node :
      dict_get cm k = Some node → p ∈ parent_crates node →
      parent_chain cm (p :: rest) → parent_chain cm (k :: p :: rest).

(** A key whose node is flagged as a root. *)
Definition root_key (cm : dict CrateNode) (l : string) : Prop :=
  ∃ node, dict_get cm l = Some node ∧ is_root node = true.

(** Where the walk falls back: a record that is not a root and whose
    listed parents are all missing from the index or already on the
    path. *)
Definition dead_end (cm : dict CrateNode) (on_path : gset string)
    (l : string) : Prop :=
  ∃ node, dict_get cm l = Some node ∧ is_root node = false ∧
    ∀ p, p ∈ parent_crates node → dict_get cm p = None ∨ p ∈ on_path.

(** ** Snapshots *)

(** Every listed parent is a key of the snapshot. *)
Definition parents_present (records : list CrateDict.t) : Prop :=
  ∀ r p, r ∈ records → p ∈ CrateDict.parent_crates r →
         p ∈ CrateDict.pubkey <$> records.

(** The two directions of the links agree: a record lists another as a
    child exactly when that one lists it as a parent. *)
Definition children_consistent (records : list CrateDict.t) : Prop :=
  ∀ r1 r2, r1 ∈ records → r2 ∈ records →
    CrateDict.pubkey r2 ∈ CrateDict.child_crates r1 ↔
    CrateDict.pubkey r1 ∈ CrateDict.parent_crates r2.

(** No cycle along the parent links: the keys can be ranked so that
    every listed parent ranks below the record that lists it. *)
Definition acyclic (records : list CrateDict.t) : Prop :=
  ∃ rank : string → nat,
    ∀ r p, r ∈ records → p ∈ CrateDict.parent_crates r →
           rank p < rank (CrateDict.pubkey r).

(** [hops records k n]: [n] steps along parent links lead from [k] to a
    record with no parents. *)
Inductive hops (records : list CrateDict.t) : string → nat → Prop :=
  | hops_root r :
      r ∈ records → CrateDict.parent_crates r = [] →
      hops records (CrateDict.pubkey r) 0
  | hops_step r p n :
      r ∈ records → p ∈ CrateDict.parent_crates r → hops records p n →
      hops records (CrateDict.pubkey r) (S n).

(** [forward records k n]: [n] steps along child links lead from a
    record with no parents to [k], through keys of the snapshot. *)
Inductive forward (records : list CrateDict.t) : string → nat → Prop :=
  | forward_root r :
      r ∈ records → CrateDict.parent_crates r = [] →
      forward records (CrateDict.pubkey r) 0
  | forward_step r c n :
      forward records (CrateDict.pubkey r) n → r ∈ records →
      c ∈ CrateDict.child_crates r → c ∈ CrateDict.pubkey <$> records →
      forward records c (S n).

(** ** Further inputs *)

(** Two records under the key A: the first lists no parents, the last
    lists B. *)
Definition two_records_one_key : list CrateDict.t :=
  [record "A" [] ["B"]; record "B" ["A"] []; record "A" ["B"] []].

(** The same chain with the child links left empty, listed from the
    newest record to the oldest. *)
Definition unlinked_chain : list CrateDict.t :=
  [record "C" ["B"] []; record "B" ["A"] []; record "A" [] []].

(** Scenario A from the newest record to the oldest. *)
Definition scenario_A_reversed : list CrateDict.t := reverse scenario_A.

(** A ranking of the keys of scenario A, roots first. *)
Definition rank_ABC (k : string) : nat :=
  if decide (k = "A") then 0 else if decide (k = "B") then 1 else 2.

(** A root A with a direct child link to C, and C listing only B as its
    parent: the links disagree, and the depth follows the child links. *)
Definition shortcut_chain : list CrateDict.t :=
  [record "A" [] ["B"; "C"]; record "B" ["A"] ["C"]; record "C" ["B"] []].

(** Two roots with a common child. *)
Definition two_roots : list CrateDict.t :=
  [record "A" [] ["C"]; record "B" [] ["C"]; record "C" ["A"; "B"] []].

(** A root R beside two records that list each other as their only
    parent. *)
Definition cycle_beside_root : list CrateDict.t :=
  [record "R" [] []; record "F" ["G"] ["G"]; record "G" ["F"] ["F"]].



(** ** Tactics *)

(** Case analysis on membership in an explicit list. *)
Ltac in_records H :=
  repeat (apply elem_of_cons in H as [->|H]);
  [..|by apply elem_of_nil in H].

(** * Dictionaries *)

Section dict.
Context {V : Type}.
Implicit Types (d : dict V) (k : string) (v : V).

Lemma dict_get_set_eq d k v : dict_get (dict_set d k v) k = Some v.
Proof.
  induction d as [|[k' v'] d IH]; simpl.
  - by rewrite decide_True.
  - destruct (decide (k' = k)) as [->|Hne]; simpl.
    + by rewrite decide_True.
    + by rewrite decide_False.
Qed.

Lemma dict_get_set_ne d k k' v :
  k ≠ k' → dict_get (dict_set d k v) k' = dict_get d k'.
Proof.
  intros Hne. induction d as [|[k0 v0] d IH]; simpl.
  - by rewrite decide_False.
  - destruct (decide (k0 = k)) as [->|Hne0]; simpl.
    + by rewrite !decide_False.
    + by rewrite IH.
Qed.

Lemma dict_get_set d k k' v :
  dict_get (dict_set d k v) k' =
    if decide (k = k') then Some v else dict_get d k'.
Proof.
  destruct (decide (k = k')) as [->|Hne];
    [apply dict_get_set_eq | by apply dict_get_set_ne].
Qed.

Lemma dict_get_Some_keys d k : is_Some (dict_get d k) ↔ k ∈ dict_keys d.
Proof.
  unfold dict_keys. induction d as [|[k' v'] d IH]; csimpl.
  - split; [by intros [? ?] | by intros ?%elem_of_nil].
  - rewrite elem_of_cons. destruct (decide (k' = k)) as [->|Hne].
    + split; [by left | by eexists].
    + rewrite IH. split; [by right | by intros [?|?]].
Qed.

Lemma dict_get_None_keys d k : dict_get d k = None ↔ k ∉ dict_keys d.
Proof. by rewrite <-dict_get_Some_keys, eq_None_not_Some. Qed.

Lemma dict_keys_set_Some d k v :
  is_Some (dict_get d k) → dict_keys (dict_set d k v) = dict_keys d.
Proof.
  unfold dict_keys. induction d as [|[k' v'] d IH]; csimpl.
  - by intros [? ?].
  - destruct (decide (k' = k)) as [->|Hne]; csimpl; [done|].
    intros H. by rewrite IH.
Qed.

Lemma dict_keys_set_None d k v :
  dict_get d k = None → dict_keys (dict_set d k v) = dict_keys d ++ [k].
Proof.
  unfold dict_keys. induction d as [|[k' v'] d IH]; csimpl; [done|].
  destruct (decide (k' = k)) as [->|Hne]; csimpl; [done|].
  intros H. by rewrite IH.
Qed.

Lemma dict_set_NoDup d k v :
  NoDup (dict_keys d) → NoDup (dict_keys (dict_set d k v)).
Proof.
  intros Hnd. destruct (dict_get d k) as [v'|] eqn:Hk.
  - by rewrite dict_keys_set_Some.
  - rewrite dict_keys_set_None by done.
    apply NoDup_app. split_and!; [done| |apply NoDup_singleton].
    intros x Hx ->%list_elem_of_singleton.
    by apply dict_get_None_keys in Hk.
Qed.

Lemma dict_keys_length d : length (dict_keys d) = length d.
Proof. unfold dict_keys. apply length_fmap. Qed.

End dict.

(** * What the passes leave untouched *)

Lemma static_parent_crates n n' :
  static n = static n' → parent_crates n = parent_crates n'.
Proof. intros H. by apply (f_equal parent_crates) in H. Qed.

Lemma static_child_crates n n' :
  static n = static n' → child_crates n = child_crates n'.
Proof. intros H. by apply (f_equal child_crates) in H. Qed.

Lemma static_is_root n n' : static n = static n' → is_root n = is_root n'.
Proof. intros H. by apply (f_equal is_root) in H. Qed.

Lemma dict_get_strip crate_map k :
  dict_get (strip crate_map) k = static <$> dict_get crate_map k.
Proof.
  unfold strip. induction crate_map as [|[k' v'] d IH]; csimpl; [done|].
  by destruct (decide (k' = k)).
Qed.

Lemma dict_keys_strip crate_map :
  dict_keys (strip crate_map) = dict_keys crate_map.
Proof.
  unfold strip, dict_keys. rewrite <-list_fmap_compose.
  by apply list_fmap_ext; intros ? [??].
Qed.

Lemma strip_set crate_map k node node' :
  dict_get crate_map k = Some node → static node' = static node →
  strip (dict_set crate_map k node') = strip crate_map.
Proof.
  unfold strip. intros Hk Hst.
  induction crate_map as [|[k' v'] d IH]; csimpl in *; [done|].
  destruct (decide (k' = k)) as [->|Hne]; csimpl.
  - injection Hk as ->. by rewrite Hst.
  - by rewrite IH.
Qed.

Lemma strip_keys cm cm' : strip cm = strip cm' → dict_keys cm = dict_keys cm'.
Proof. intros H. by rewrite <-(dict_keys_strip cm), H, dict_keys_strip. Qed.

Lemma strip_length cm cm' : strip cm = strip cm' → length cm = length cm'.
Proof. intros H%strip_keys. by rewrite <-!dict_keys_length, H. Qed.

Lemma strip_get cm cm' k :
  strip cm = strip cm' →
  static <$> dict_get cm k = static <$> dict_get cm' k.
Proof. intros H. by rewrite <-!dict_get_strip, H. Qed.

Lemma strip_get_Some cm cm' k node :
  strip cm = strip cm' → dict_get cm k = Some node →
  ∃ node', dict_get cm' k = Some node' ∧ static node' = static node.
Proof.
  intros H%(strip_get _ _ k) Hk. rewrite Hk in H.
  destruct (dict_get cm' k) as [node'|]; [|done].
  exists node'. split; [done|]. simpl in H. congruence.
Qed.

(** * First pass *)

Lemma first_pass_snoc crates c :
  first_pass (crates ++ [c]) = index_step (first_pass crates) c.
Proof. unfold first_pass. by rewrite foldl_app. Qed.

Lemma last_with_key_snoc k crates c :
  last_with_key k (crates ++ [c]) =
    if decide (CrateDict.pubkey c = k) then Some c
    else last_with_key k crates.
Proof.
  unfold last_with_key. rewrite filter_app.
  destruct (decide (CrateDict.pubkey c = k)) as [Hk|Hk].
  - rewrite filter_cons_True, filter_nil by done. apply last_snoc.
  - rewrite filter_cons_False, filter_nil by done. by rewrite app_nil_r.
Qed.

Lemma first_pass_get crates k :
  dict_get (first_pass crates).1 k = make_node <$> last_with_key k crates.
Proof.
  induction crates as [|c crates IH] using rev_ind; [done|].
  rewrite first_pass_snoc, last_with_key_snoc.
  destruct (first_pass crates) as [cm roots]; simpl in *.
  rewrite dict_get_set. by destruct (decide (CrateDict.pubkey c = k)).
Qed.

Lemma first_pass_roots crates r :
  r ∈ (first_pass crates).2 ↔
    ∃ c, c ∈ crates ∧ CrateDict.pubkey c = r ∧ CrateDict.parent_crates c = [].
Proof.
  induction crates as [|c crates IH] using rev_ind.
  - split; [by intros ?%not_elem_of_empty|by intros (?&?%elem_of_nil&_)].
  - rewrite first_pass_snoc.
    destruct (first_pass crates) as [cm roots]; simpl in *.
    setoid_rewrite elem_of_app. setoid_rewrite list_elem_of_singleton.
    destruct (CrateDict.parent_crates c) as [|p ps] eqn:Hp; simpl.
    + rewrite elem_of_union, IH, elem_of_singleton. split.
      * intros [(c'&?&?&?)| ->]; [exists c'|exists c]; naive_solver.
      * intros (c'&[?| ->]&?&?); [left; by exists c'|by right].
    + rewrite IH. split.
      * intros (c'&?&?&?). exists c'. naive_solver.
      * intros (c'&[?| ->]&?&?); [by exists c'|congruence].
Qed.

Lemma last_with_key_Some k crates c :
  last_with_key k crates = Some c → c ∈ crates ∧ CrateDict.pubkey c = k.
Proof.
  unfold last_with_key. intros H%last_Some_elem_of.
  by apply list_elem_of_filter in H as [? ?].
Qed.

Lemma last_with_key_split crates l1 c l2 :
  crates = l1 ++ c :: l2 →
  (∀ c', c' ∈ l2 → CrateDict.pubkey c' ≠ CrateDict.pubkey c) →
  last_with_key (CrateDict.pubkey c) crates = Some c.
Proof.
  intros -> Hl2. unfold last_with_key.
  rewrite filter_app, filter_cons_True by done.
  replace (filter _ l2) with (@nil CrateDict.t); [apply last_snoc|].
  symmetry. induction l2 as [|c' l2 IH]; [done|].
  rewrite filter_cons_False by (apply Hl2; by left).
  apply IH. intros ? ?. apply Hl2. by right.
Qed.

Lemma last_with_key_NoDup crates c :
  NoDup (CrateDict.pubkey <$> crates) → c ∈ crates →
  last_with_key (CrateDict.pubkey c) crates = Some c.
Proof.
  intros Hnd (l1&l2&->)%list_elem_of_split.
  apply last_with_key_split with l1 l2; [done|].
  intros c' Hc' Heq. rewrite fmap_app, fmap_cons in Hnd.
  apply NoDup_app in Hnd as (_&_&[Hc _]%NoDup_cons).
  apply Hc. rewrite <-Heq. by apply list_elem_of_fmap_2.
Qed.

Lemma last_with_key_is_Some k crates :
  is_Some (last_with_key k crates) ↔ k ∈ CrateDict.pubkey <$> crates.
Proof.
  split.
  - intros [c [? <-]%last_with_key_Some]. by apply list_elem_of_fmap_2.
  - intros (c&->&Hc)%list_elem_of_fmap. unfold last_with_key.
    destruct (last _) eqn:Hl; [done|]. apply last_None in Hl.
    assert (c ∈ filter (λ c0, CrateDict.pubkey c0 = CrateDict.pubkey c) crates)
      as Hin by by apply list_elem_of_filter.
    rewrite Hl in Hin. by apply elem_of_nil in Hin.
Qed.

Lemma first_pass_keys crates k :
  k ∈ dict_keys (first_pass crates).1 ↔ k ∈ CrateDict.pubkey <$> crates.
Proof.
  rewrite <-dict_get_Some_keys, first_pass_get, fmap_is_Some.
  apply last_with_key_is_Some.
Qed.

Lemma first_pass_wf crates :
  wf_index (first_pass crates).1 (first_pass crates).2.
Proof.
  split.
  - induction crates as [|c crates IH] using rev_ind; [constructor|].
    rewrite first_pass_snoc. destruct (first_pass crates); simpl in *.
    by apply dict_set_NoDup.
  - intros k node. rewrite first_pass_get.
    destruct (last_with_key k crates) as [c|] eqn:Hc; [|done].
    intros [= <-]. by apply last_with_key_Some in Hc as [_ ?].
  - intros k node. rewrite first_pass_get.
    destruct (last_with_key k crates) as [c|] eqn:Hc; [|done].
    by intros [= <-].
  - intros k node. rewrite first_pass_get.
    destruct (last_with_key k crates) as [c|] eqn:Hc; [|done].
    intros [= <-]. simpl. intros Hroot%Nat.eqb_eq%length_zero_iff_nil.
    apply last_with_key_Some in Hc as [? ?].
    apply first_pass_roots. by exists c.
  - intros r (c&Hc&<-&_)%first_pass_roots.
    apply dict_get_Some_keys, first_pass_keys. by apply list_elem_of_fmap_2.
Qed.

(** * Second pass: the breadth-first search *)

Lemma elem_of_key_set crate_map k :
  k ∈ key_set crate_map ↔ is_Some (dict_get crate_map k).
Proof. unfold key_set. by rewrite elem_of_list_to_set, dict_get_Some_keys. Qed.

Lemma key_set_strip cm cm' : strip cm = strip cm' → key_set cm = key_set cm'.
Proof. unfold key_set. by intros ->%strip_keys. Qed.

Lemma depth_of_set cm k k' node d :
  depth_of (dict_set cm k (set_depth node d)) k' =
    if decide (k = k') then d else depth_of cm k'.
Proof. unfold depth_of. rewrite dict_get_set. by destruct (decide (k = k')). Qed.

Lemma same_nodes_strip cm cm' : strip cm = strip cm' → same_nodes cm cm'.
Proof. intros H k. by apply strip_get. Qed.

Lemma same_nodes_sym cm cm' : same_nodes cm cm' → same_nodes cm' cm.
Proof. intros H k. by rewrite H. Qed.

Lemma same_nodes_trans cm1 cm2 cm3 :
  same_nodes cm1 cm2 → same_nodes cm2 cm3 → same_nodes cm1 cm3.
Proof. intros H1 H2 k. by rewrite H1. Qed.

Lemma same_nodes_Some cm cm' k node :
  same_nodes cm cm' → dict_get cm k = Some node →
  ∃ node', dict_get cm' k = Some node' ∧ static node' = static node.
Proof.
  intros H Hk. specialize (H k). rewrite Hk in H.
  destruct (dict_get cm' k) as [node'|]; [|done].
  exists node'. split; [done|]. simpl in H. congruence.
Qed.

Lemma same_nodes_None cm cm' k :
  same_nodes cm cm' → dict_get cm k = None → dict_get cm' k = None.
Proof.
  intros H Hk. specialize (H k). rewrite Hk in H.
  by destruct (dict_get cm' k).
Qed.

Lemma same_nodes_is_Some cm cm' k :
  same_nodes cm cm' → is_Some (dict_get cm k) → is_Some (dict_get cm' k).
Proof.
  intros H [node Hk]. destruct (same_nodes_Some _ _ _ _ H Hk) as (?&?&_).
  by eexists.
Qed.

Lemma cedge_same cm cm' u c : same_nodes cm cm' → cedge cm u c → cedge cm' u c.
Proof.
  intros Hs (node&Hu&Hc&Hin).
  destruct (same_nodes_Some _ _ _ _ Hs Hu) as (node'&Hu'&Hst).
  exists node'. split_and!; [done| |].
  - by rewrite (static_child_crates _ _ Hst).
  - by apply same_nodes_is_Some with cm.
Qed.

Lemma cedge_strip cm cm' u c : strip cm = strip cm' → cedge cm u c → cedge cm' u c.
Proof. intros Hs. by apply cedge_same, same_nodes_strip. Qed.

(** ** The loop over the children of one node *)

Lemma size_unvisited_insert (keys visited : gset string) c :
  c ∈ keys → c ∉ visited →
  size (keys ∖ visited) = S (size (keys ∖ (visited ∪ {[c]}))).
Proof.
  intros Hc Hv.
  assert (keys ∖ visited = {[c]} ∪ keys ∖ (visited ∪ {[c]})) as ->.
  { apply set_eq. intros k. destruct (decide (k = c)); set_solver. }
  rewrite size_union by set_solver. by rewrite size_singleton.
Qed.

Lemma grows_refl d cm visited queue : grows d cm visited queue (cm, visited, queue).
Proof.
  split; simpl; try done.
  - intros k. by rewrite decide_False by tauto.
  - exists []. rewrite app_nil_r. split_and!; [done| |]; set_solver.
Qed.

Lemma grows_trans d cm visited queue cm1 visited1 queue1 st' :
  grows d cm visited queue (cm1, visited1, queue1) →
  grows d cm1 visited1 queue1 st' →
  grows d cm visited queue st'.
Proof.
  intros [Hs1 Hv1 Hk1 Hd1 (new1&Hq1&Hn1&Hc1) Hm1]
         [Hs2 Hv2 Hk2 Hd2 (new2&Hq2&Hn2&Hc2) Hm2].
  destruct st' as [[cm2 visited2] queue2]; simpl in *. split; simpl.
  - congruence.
  - set_solver.
  - intros k Hk2' Hk. destruct (decide (k ∈ visited1)) as [Hk1'|Hk1'].
    + by apply Hk1.
    + rewrite <-elem_of_key_set, <-(key_set_strip _ _ Hs1), elem_of_key_set.
      by apply Hk2.
  - intros k. rewrite Hd2, Hd1.
    repeat case_decide; try done; exfalso; set_solver.
  - exists (new1 ++ new2). rewrite Hq2, Hq1, app_assoc. split_and!; [done| |].
    + intros kd [Hin|Hin]%elem_of_app.
      * destruct (Hn1 _ Hin) as (?&?&?). set_solver.
      * destruct (Hn2 _ Hin) as (?&?&?). set_solver.
    + intros k Hk2' Hk. rewrite fmap_app, elem_of_app.
      destruct (decide (k ∈ visited1)); [left|right]; eauto.
  - rewrite (key_set_strip _ _ Hs1) in Hm2. lia.
Qed.

Lemma grows_step d cm visited queue c :
  grows d cm visited queue (visit_child d (cm, visited, queue) c).
Proof.
  unfold visit_child. destruct (dict_get cm c) as [node|] eqn:Hc;
    [|apply grows_refl].
  destruct (decide (c ∈ visited)) as [Hv|Hv]; [apply grows_refl|].
  split; simpl.
  - by apply strip_set with node.
  - set_solver.
  - intros k Hk Hk'. assert (k = c) as -> by set_solver. by eexists.
  - intros k. rewrite depth_of_set.
    destruct (decide (c = k)) as [->|Hne].
    + rewrite decide_True; [done|set_solver].
    + rewrite decide_False; [done|set_solver].
  - exists [(c, (d + 1)%Z)]. split_and!; [done| |].
    + intros kd ->%list_elem_of_singleton. simpl. set_solver.
    + intros k Hk Hk'. assert (k = c) as -> by set_solver. set_solver.
  - rewrite length_app. simpl.
    rewrite (size_unvisited_insert _ visited c); [lia| |done].
    apply elem_of_key_set. by eexists.
Qed.

Lemma visit_children_spec d cs cm visited queue :
  let st' := foldl (visit_child d) (cm, visited, queue) cs in
  grows d cm visited queue st' ∧
  (∀ c, c ∈ cs → is_Some (dict_get cm c) → c ∈ st'.1.2) ∧
  (∀ k, k ∈ st'.1.2 → k ∉ visited → k ∈ cs).
Proof.
  revert cm visited queue.
  induction cs as [|c cs IH]; intros cm visited queue; cbn [foldl].
  { simpl. split_and!; [apply grows_refl| |done]. by intros ? ?%elem_of_nil. }
  pose proof (grows_step d cm visited queue c) as Hstep.
  destruct (visit_child d (cm, visited, queue) c)
    as [[cm1 visited1] queue1] eqn:Hvc.
  destruct (IH cm1 visited1 queue1) as (Hg&Hcov&Hnew).
  assert (∀ k, is_Some (dict_get cm k) → is_Some (dict_get cm1 k)) as Hkeys.
  { intros k. rewrite <-!elem_of_key_set.
    pose proof (grows_strip _ _ _ _ _ Hstep) as Hs. simpl in Hs.
    by rewrite (key_set_strip _ _ Hs). }
  split_and!.
  - by apply grows_trans with cm1 visited1 queue1.
  - intros c' [->|Hin]%elem_of_cons Hc'; [|by apply Hcov, Hkeys].
    apply (grows_visited _ _ _ _ _ Hg). simpl.
    unfold visit_child in Hvc. destruct Hc' as [node Hc']. rewrite Hc' in Hvc.
    destruct (decide (c ∈ visited)); injection Hvc as <- <- <-; set_solver.
  - intros k Hk Hk'. rewrite elem_of_cons.
    destruct (decide (k ∈ visited1)) as [Hk1|Hk1]; [left|right; by apply Hnew].
    unfold visit_child in Hvc. destruct (dict_get cm c); [|set_solver].
    destruct (decide (c ∈ visited)); injection Hvc as <- <- <-; set_solver.
Qed.

(** ** The queue loop *)

Lemma bfs_inv_pop cm0 seeds cm visited u d queue node :
  bfs_inv cm0 seeds cm visited ((u, d) :: queue) →
  dict_get cm u = Some node →
  ∀ cm' visited' queue',
    foldl (visit_child d) (cm, visited, queue) (child_crates node) =
      (cm', visited', queue') →
    bfs_inv cm0 seeds cm' visited' queue'.
Proof.
  intros [Hs Hvk Hq Hso Hlv Hcl Hsd Hse Hun] Hu cm' visited' queue' Hfold.
  destruct (visit_children_spec d (child_crates node) cm visited queue)
    as ([Gs Gv Gk Gd (new&Gq&Gn&Gc) _]&Hcov&Hnew).
  rewrite Hfold in *. simpl in *. subst queue'.
  assert (u ∈ visited ∧ depth_of cm u = d) as [Huv Hud]
    by (apply Hq; by left).
  assert (∀ k, k ∈ visited → depth_of cm' k = depth_of cm k) as Hold.
  { intros k Hk. rewrite Gd. by rewrite decide_False by tauto. }
  assert (∀ k, k ∈ visited' → k ∉ visited → depth_of cm' k = (d + 1)%Z)
    as Hfresh.
  { intros k Hk Hk'. rewrite Gd. by rewrite decide_True. }
  apply StronglySorted_cons in Hso as [Hhd Hso].
  rewrite Forall_forall in Hhd.
  split.
  - congruence.
  - intros k Hk. destruct (decide (k ∈ visited)) as [?|Hk']; [by apply Hvk|].
    rewrite <-elem_of_key_set, <-(key_set_strip _ _ Hs), elem_of_key_set.
    by apply Gk.
  - intros k d' [Hin|Hin]%elem_of_app.
    + destruct (Hq k d') as [? ?]; [by right|].
      split; [by apply Gv|]. by rewrite Hold.
    + destruct (Gn _ Hin) as (?&?&?); simpl in *. subst d'.
      split; [done|]. by apply Hfresh.
  - rewrite fmap_app. apply StronglySorted_app. split_and!; [|done|].
    + intros x y Hx (kd&->&Hy)%list_elem_of_fmap.
      destruct (Gn _ Hy) as (->&_&_).
      apply list_elem_of_fmap in Hx as ([k dk]&->&Hx). simpl.
      destruct (Hq k dk) as [Hkv <-]; [by right|].
      apply Hlv with u; [done|by left].
    + clear -Gn. induction new as [|kd new IH]; csimpl; [constructor|].
      constructor.
      * apply IH. intros ? ?. apply Gn. by right.
      * apply Forall_forall. intros y (kd'&->&Hy)%list_elem_of_fmap.
        destruct (Gn kd) as (->&_); [by left|].
        destruct (Gn kd') as (->&_); [by right|]. done.
  - intros v k d' Hv Hin.
    assert (d ≤ d')%Z as Hdd'.
    { apply elem_of_app in Hin as [Hin|Hin].
      - apply Hhd. by apply (list_elem_of_fmap_2 snd _ (k, d')).
      - destruct (Gn _ Hin) as (?&_); simpl in *. lia. }
    destruct (decide (v ∈ visited)) as [Hv'|Hv'].
    + rewrite Hold by done.
      assert (depth_of cm v ≤ d + 1)%Z by (apply Hlv with u; [done|by left]).
      lia.
    + rewrite Hfresh by done. lia.
  - intros w c Hw Hwq Hedge.
    rewrite fmap_app, not_elem_of_app in Hwq. destruct Hwq as [Hwq Hwn].
    assert (w ∈ visited) as Hwv.
    { destruct (decide (w ∈ visited)); [done|]. exfalso. by apply Hwn, Gc. }
    assert (∀ c, c ∈ visited → depth_of cm c ≤ d + 1)%Z as Hbound.
    { intros c' ?. apply Hlv with u; [done|by left]. }
    destruct (decide (w = u)) as [->|Hne].
    + assert (c ∈ visited') as Hcv.
      { apply (cedge_strip _ cm) in Hedge as (node'&Hu'&Hc&Hin); [|done].
        rewrite Hu in Hu'. injection Hu' as <-. by apply Hcov. }
      split; [done|]. rewrite (Hold u), Hud by done.
      destruct (decide (c ∈ visited)).
      * rewrite Hold by done. by apply Hbound.
      * rewrite Hfresh by done. lia.
    + destruct (Hcl w c) as [Hcv Hcd]; [done| |done|].
      { apply not_elem_of_cons. by split. }
      split; [by apply Gv|]. by rewrite !Hold.
  - intros v Hv. destruct (decide (v ∈ visited)) as [Hv'|Hv'].
    + rewrite Hold by done. by apply Hsd.
    + destruct (Hsd u Huv) as (n&Hn&Hdn). exists (S n). split.
      * apply creach_step with u; [done|].
        apply (cedge_strip cm); [done|]. exists node.
        split_and!; [done|by apply Hnew|by apply Gk].
      * rewrite Hfresh by done. lia.
  - intros s Hseed. destruct (Hse s Hseed) as [? ?].
    split; [by apply Gv|]. by rewrite Hold.
  - intros k Hk. rewrite Gd, decide_False by tauto. apply Hun. set_solver.
Qed.

Lemma bfs_inv_run cm0 seeds fuel :
  ∀ cm visited queue cm' visited',
    bfs_inv cm0 seeds cm visited queue →
    bfs fuel (cm, visited, queue) = Ok (cm', visited') →
    bfs_inv cm0 seeds cm' visited' [].
Proof.
  induction fuel as [|fuel IH]; intros cm visited queue cm' visited' Hinv;
    destruct queue as [|[u d] queue]; simpl; try done.
  - by intros [= <- <-].
  - by intros [= <- <-].
  - unfold dict_item. destruct (dict_get cm u) as [node|] eqn:Hu; [|done].
    simpl.
    destruct (foldl (visit_child d) (cm, visited, queue) (child_crates node))
      as [[cm1 visited1] queue1] eqn:Hfold.
    apply IH. by eapply bfs_inv_pop.
Qed.

(** With the queue empty, the depths are the least numbers of forward
    edges from a seed. *)
Lemma bfs_inv_complete cm0 seeds cm visited k n :
  bfs_inv cm0 seeds cm visited [] → creach cm0 seeds k n →
  k ∈ visited ∧ (depth_of cm k ≤ Z.of_nat n)%Z.
Proof.
  intros Hinv. induction 1 as [k Hk|u c n _ [IHv IHd] He].
  - destruct (inv_seeds _ _ _ _ _ Hinv k Hk) as [? ->]. by split.
  - destruct (inv_closed _ _ _ _ _ Hinv u c) as [? ?]; [done| |done|].
    { by intros ?%elem_of_nil. }
    split; [done|lia].
Qed.

(** Every key is dequeued at most once, so a budget of one [popleft] per
    key is enough, and no dequeued key is missing from the index. *)
Lemma bfs_total fuel :
  ∀ cm visited queue,
    (∀ kd, kd ∈ queue → is_Some (dict_get cm kd.1)) →
    length queue + size (key_set cm ∖ visited) ≤ fuel →
    ∃ res, bfs fuel (cm, visited, queue) = Ok res.
Proof.
  induction fuel as [|fuel IH]; intros cm visited queue Hkeys Hfuel;
    destruct queue as [|[u d] queue]; simpl in *; try by eexists.
  - lia.
  - unfold dict_item. destruct (Hkeys (u, d)) as [node Hu]; [by left|].
    simpl in Hu. rewrite Hu. simpl.
    destruct (visit_children_spec d (child_crates node) cm visited queue)
      as ([Gs _ Gk _ (new&Gq&Gn&_) Gm]&_&_).
    destruct (foldl (visit_child d) (cm, visited, queue) (child_crates node))
      as [[cm1 visited1] queue1]; simpl in *.
    apply IH.
    + intros kd Hin. rewrite <-elem_of_key_set, (key_set_strip _ _ Gs),
        elem_of_key_set.
      rewrite Gq in Hin. apply elem_of_app in Hin as [Hin|Hin].
      * apply Hkeys. by right.
      * destruct (Gn _ Hin) as (_&?&?). by apply Gk.
    + rewrite (key_set_strip _ _ Gs). lia.
Qed.

(** ** Seeding the queue *)

Lemma seed_spec roots :
  ∀ cm visited queue,
    (∀ r, r ∈ roots → is_Some (dict_get cm r)) →
    ∃ cm',
      foldlM seed_step (cm, visited, queue) roots =
        Ok (cm', visited ∪ list_to_set roots,
            queue ++ ((λ r, (r, 0%Z)) <$> roots)) ∧
      strip cm' = strip cm ∧
      ∀ k, depth_of cm' k = if decide (k ∈ roots) then 0%Z else depth_of cm k.
Proof.
  induction roots as [|r roots IH]; intros cm visited queue Hkeys; csimpl.
  - exists cm. rewrite app_nil_r, (right_id_L ∅ (∪)).
    split_and!; try done;
      intros k; by rewrite decide_False by apply not_elem_of_nil.
  - unfold dict_item. destruct (Hkeys r) as [node Hr]; [by left|].
    rewrite Hr. simpl.
    assert (strip (dict_set cm r (set_depth node 0)) = strip cm) as Hs
      by by apply strip_set with node.
    destruct (IH (dict_set cm r (set_depth node 0)) (visited ∪ {[r]})
                (queue ++ [(r, 0%Z)])) as (cm'&Hrun&Hs'&Hd).
    { intros r' Hr'. rewrite <-elem_of_key_set, (key_set_strip _ _ Hs),
        elem_of_key_set. apply Hkeys. by right. }
    exists cm'. split_and!.
    + rewrite Hrun. do 2 f_equal; [f_equal; set_solver|].
      by rewrite <-app_assoc.
    + congruence.
    + intros k. rewrite Hd, depth_of_set.
      repeat case_decide; try done; set_solver.
Qed.

(** [for root_pubkey in root_crates] visits a set, in an order Python
    does not specify.  The second pass is therefore specified for any
    duplicate-free enumeration [order] of the root set. *)
Lemma second_pass_any_order cm (roots : gset string) (order : list string) :
  NoDup (dict_keys cm) →
  (∀ r, r ∈ roots → is_Some (dict_get cm r)) →
  NoDup order → list_to_set order = roots →
  ∃ seeded cm' visited',
    foldlM seed_step (cm, ∅, []) order = Ok seeded ∧
    bfs (length cm) seeded = Ok (cm', visited') ∧
    bfs_inv cm roots cm' visited' [].
Proof.
  intros Hnd Hroots Hord Hset.
  assert (∀ r, r ∈ order ↔ r ∈ roots) as Hin.
  { intros r. by rewrite <-Hset, elem_of_list_to_set. }
  destruct (seed_spec order cm ∅ []) as (cm1&Hrun&Hs&Hd).
  { intros r ?%Hin. by apply Hroots. }
  rewrite (left_id_L ∅ (∪)), Hset in Hrun. simpl in Hrun.
  set (queue := (λ r, (r, 0%Z)) <$> order) in *.
  assert (bfs_inv cm roots cm1 roots queue) as Hinv.
  { assert (∀ k d, (k, d) ∈ queue → k ∈ roots ∧ d = 0%Z) as Hq.
    { intros k d (r&[= -> ->]&Hr%Hin)%list_elem_of_fmap. by split. }
    assert (∀ k, k ∈ roots → depth_of cm1 k = 0%Z) as Hzero.
    { intros k Hk. rewrite Hd. by rewrite decide_True by by apply Hin. }
    split.
    - done.
    - done.
    - intros k d [Hk ->]%Hq. split; [done|]. by apply Hzero.
    - unfold queue. rewrite <-list_fmap_compose.
      generalize order. intros l.
      induction l; csimpl; constructor; [done|].
      apply Forall_forall. by intros ? (?&->&_)%list_elem_of_fmap.
    - intros v k d Hv [_ ->]%Hq. rewrite Hzero by done. lia.
    - intros u c Hu Hnq. exfalso. apply Hnq. unfold queue.
      rewrite <-list_fmap_compose. apply list_elem_of_fmap.
      exists u. split; [done|]. by apply Hin.
    - intros v Hv. exists 0. split; [by constructor|]. by apply Hzero.
    - intros s Hseed. split; [done|]. by apply Hzero.
    - intros k Hk. rewrite Hd. by rewrite decide_False by by rewrite Hin. }
  destruct (bfs_total (length cm) cm1 roots queue) as ([cm' visited']&Hbfs).
  - intros kd (r&->&Hr%Hin)%list_elem_of_fmap. simpl.
    rewrite <-elem_of_key_set, (key_set_strip _ _ Hs), elem_of_key_set.
    by apply Hroots.
  - unfold queue. rewrite length_fmap, (key_set_strip _ _ Hs).
    assert (length order = size roots) as ->.
    { by rewrite <-Hset, size_list_to_set. }
    rewrite size_difference.
    + assert (size roots ≤ size (key_set cm)).
      { apply subseteq_size. intros r Hr. apply elem_of_key_set. auto. }
      assert (size (key_set cm) = length cm) as <-; [|lia].
      unfold key_set. rewrite size_list_to_set by done.
      apply dict_keys_length.
    + intros r Hr. apply elem_of_key_set. auto.
  - exists (cm1, roots, queue), cm', visited'. split_and!; [done..|].
    by eapply bfs_inv_run.
Qed.

(** The second pass as [build_supply_chain_graph] runs it. *)
Lemma second_pass_spec cm (roots : gset string) :
  NoDup (dict_keys cm) →
  (∀ r, r ∈ roots → is_Some (dict_get cm r)) →
  ∃ seeded cm' visited',
    foldlM seed_step (cm, ∅, []) (elements roots) = Ok seeded ∧
    bfs (length cm) seeded = Ok (cm', visited') ∧
    bfs_inv cm roots cm' visited' [].
Proof.
  intros Hnd Hroots. apply second_pass_any_order; [done..| |].
  - apply NoDup_elements.
  - apply list_to_set_elements_L.
Qed.

Lemma static_depth_eq (n n' : CrateNode) :
  static n = static n' → depth n = depth n' → n = n'.
Proof.
  destruct n, n'. unfold static, set_depth. simpl. intros [=] ?. congruence.
Qed.

Lemma dict_eq_strip_depth (cm cm' : dict CrateNode) :
  NoDup (dict_keys cm) → strip cm = strip cm' →
  (∀ k, depth_of cm k = depth_of cm' k) → cm = cm'.
Proof.
  revert cm'. induction cm as [|[k n] cm IH]; intros [|[k' n'] cm'];
    try done.
  intros [Hk Hnd]%NoDup_cons Heq Hd.
  pose proof (f_equal (λ l, fst <$> head l) Heq) as Hkk.
  pose proof (f_equal (λ l, snd <$> head l) Heq) as Hst.
  pose proof (f_equal tail Heq) as Hs.
  simpl in Hkk, Hst, Hs. injection Hkk as <-.
  assert (static n = static n') as Hst' by congruence. clear Hst Heq.
  assert (n = n') as <-.
  { apply static_depth_eq; [done|]. specialize (Hd k).
    unfold depth_of in Hd. simpl in Hd.
    by rewrite !decide_True in Hd by done. }
  f_equal. apply IH; [done..|]. intros k0.
  destruct (decide (k = k0)) as [<-|Hne].
  - unfold depth_of.
    assert (dict_get cm k = None) as -> by by apply dict_get_None_keys.
    assert (dict_get cm' k = None) as ->; [|done].
    apply dict_get_None_keys. by rewrite <-(strip_keys cm cm' Hs).
  - specialize (Hd k0). unfold depth_of in *. simpl in Hd.
    by rewrite !decide_False in Hd by done.
Qed.

(** What the search leaves behind is fixed by the index and the root set
    alone: the order in which the roots are enqueued does not matter. *)
Lemma bfs_inv_determined cm0 seeds cm1 visited1 cm2 visited2 :
  NoDup (dict_keys cm0) →
  bfs_inv cm0 seeds cm1 visited1 [] → bfs_inv cm0 seeds cm2 visited2 [] →
  cm1 = cm2 ∧ visited1 = visited2.
Proof.
  intros Hnd H1 H2.
  assert (∀ cma va cmb vb,
            bfs_inv cm0 seeds cma va [] → bfs_inv cm0 seeds cmb vb [] →
            ∀ k, k ∈ va → k ∈ vb ∧ (depth_of cmb k ≤ depth_of cma k)%Z)
    as Hhalf.
  { intros cma va cmb vb Ha Hb k Hk.
    destruct (inv_sound _ _ _ _ _ Ha k Hk) as (n&Hn&->).
    by apply (bfs_inv_complete _ _ _ _ _ _ Hb). }
  assert (visited1 = visited2) as <-.
  { apply set_eq. intros k. split; intros Hk.
    - by apply (Hhalf _ _ _ _ H1 H2).
    - by apply (Hhalf _ _ _ _ H2 H1). }
  split; [|done]. apply dict_eq_strip_depth.
  - rewrite (strip_keys _ _ (inv_strip _ _ _ _ _ H1)). done.
  - rewrite (inv_strip _ _ _ _ _ H1). symmetry. apply (inv_strip _ _ _ _ _ H2).
  - intros k. destruct (decide (k ∈ visited1)) as [Hk|Hk].
    + destruct (Hhalf _ _ _ _ H1 H2 k Hk) as [_ ?].
      destruct (Hhalf _ _ _ _ H2 H1 k Hk) as [_ ?]. lia.
    + rewrite (inv_unvisited _ _ _ _ _ H1 k Hk).
      by rewrite (inv_unvisited _ _ _ _ _ H2 k Hk).
Qed.

Lemma second_pass_order_irrelevant cm (roots : gset string)
    (order : list string) seeded res :
  NoDup (dict_keys cm) →
  (∀ r, r ∈ roots → is_Some (dict_get cm r)) →
  NoDup order → list_to_set order = roots →
  foldlM seed_step (cm, ∅, []) order = Ok seeded →
  bfs (length cm) seeded = Ok res →
  ∃ seeded', foldlM seed_step (cm, ∅, []) (elements roots) = Ok seeded' ∧
             bfs (length cm) seeded' = Ok res.
Proof.
  intros Hnd Hroots Hord Hset Hseed Hbfs.
  destruct (second_pass_any_order cm roots order)
    as (s1&cm1&v1&Hs1&Hb1&Hinv1); [done..|].
  destruct (second_pass_spec cm roots) as (s2&cm2&v2&Hs2&Hb2&Hinv2); [done..|].
  destruct (bfs_inv_determined _ _ _ _ _ _ Hnd Hinv1 Hinv2) as [<- <-].
  exists s2. split; [done|]. congruence.
Qed.

(** * The pass over the unvisited nodes *)

Lemma roots_ok_wf cm roots : wf_index cm roots → roots_ok cm roots.
Proof. intros Hwf k node Hk. split; [by eapply wf_is_root|by eapply wf_root_in]. Qed.

Lemma roots_ok_same cm cm' roots :
  same_nodes cm cm' → roots_ok cm roots → roots_ok cm' roots.
Proof.
  intros Hs Hok k node' Hk.
  destruct (same_nodes_Some _ _ _ _ (same_nodes_sym _ _ Hs) Hk)
    as (node&Hk'&Hst).
  destruct (Hok k node Hk') as [Hr Hin].
  rewrite <-(static_is_root _ _ Hst), <-(static_parent_crates _ _ Hst).
  by split.
Qed.

Lemma fallback_step_spec visited cm roots k :
  roots_ok cm roots →
  ∃ cm', fallback_step visited (cm, roots) k = (cm', roots) ∧
    strip cm' = strip cm ∧
    (∀ k', k' ≠ k → dict_get cm' k' = dict_get cm k') ∧
    (k ∈ visited → cm' = cm).
Proof.
  intros Hok. unfold fallback_step.
  destruct (dict_get cm k) as [node|] eqn:Hk; [|by exists cm].
  destruct (decide (k ∈ visited)) as [Hv|Hv]; [by exists cm|].
  destruct (parent_crates node) as [|p ps] eqn:Hp.
  - destruct (Hok k node Hk) as [Hr Hin]. rewrite Hp in Hr. simpl in Hr.
    eexists. split_and!.
    + f_equal. specialize (Hin Hr). set_solver.
    + apply strip_set with node; [done|].
      unfold static, set_depth, set_is_root. simpl. by rewrite Hr.
    + intros k' Hne. by apply dict_get_set_ne.
    + done.
  - eexists. split_and!; [done| | |done].
    + by apply strip_set with node.
    + intros k' Hne. by apply dict_get_set_ne.
Qed.

Lemma fallback_fold_spec visited ks :
  ∀ cm roots, roots_ok cm roots →
    ∃ cm', foldl (fallback_step visited) (cm, roots) ks = (cm', roots) ∧
      strip cm' = strip cm ∧
      (∀ k, k ∉ ks → dict_get cm' k = dict_get cm k) ∧
      (∀ k, k ∈ visited → dict_get cm' k = dict_get cm k).
Proof.
  induction ks as [|k ks IH]; intros cm roots Hok; cbn [foldl].
  { by exists cm. }
  destruct (fallback_step_spec visited cm roots k Hok) as (cm1&->&Hs1&Hne1&Hv1).
  destruct (IH cm1 roots) as (cm'&->&Hs&Hne&Hv).
  { apply roots_ok_same with cm; [|done].
    by apply same_nodes_sym, same_nodes_strip. }
  exists cm'. split_and!; [done|congruence| |].
  - intros k' [? ?]%not_elem_of_cons. rewrite Hne by done. by apply Hne1.
  - intros k' Hk'. rewrite Hv by done.
    destruct (decide (k' = k)) as [->|?]; [by rewrite Hv1|by apply Hne1].
Qed.

Lemma fallback_pass_spec cm visited roots :
  roots_ok cm roots →
  ∃ cm', fallback_pass cm visited roots = (cm', roots) ∧
    strip cm' = strip cm ∧
    (∀ k, k ∈ visited → dict_get cm' k = dict_get cm k).
Proof.
  intros Hok. unfold fallback_pass.
  destruct (fallback_fold_spec visited (dict_keys cm) cm roots Hok)
    as (cm'&?&?&_&?).
  by exists cm'.
Qed.

Lemma parent_depths_absent cm node :
  (∀ p, p ∈ parent_crates node → dict_get cm p = None) →
  parent_depths cm node = [].
Proof.
  unfold parent_depths. induction (parent_crates node) as [|p ps IH];
    intros Habs; csimpl; [done|].
  rewrite (Habs p) by by left. simpl. apply IH. intros ? ?. apply Habs. by right.
Qed.

(** An unvisited record none of whose listed parents is in the index is
    given depth [0]. *)
Lemma fallback_orphan cm visited roots k node :
  roots_ok cm roots → NoDup (dict_keys cm) →
  dict_get cm k = Some node → k ∉ visited →
  parent_crates node ≠ [] →
  (∀ p, p ∈ parent_crates node → dict_get cm p = None) →
  depth_of (fallback_pass cm visited roots).1 k = 0%Z.
Proof.
  intros Hok Hnd Hk Hv Hps Habs. unfold fallback_pass.
  assert (k ∈ dict_keys cm) as (ks1&ks2&Hks)%list_elem_of_split
    by (apply dict_get_Some_keys; by eexists).
  rewrite Hks in Hnd |- *. apply NoDup_app in Hnd as (_&Hk1&[Hk2 _]%NoDup_cons).
  rewrite foldl_app. cbn [foldl].
  destruct (fallback_fold_spec visited ks1 cm roots Hok) as (cm1&->&Hs1&Hne1&_).
  assert (same_nodes cm1 cm) as Hsame by by apply same_nodes_strip.
  assert (roots_ok cm1 roots) as Hok1
    by (apply roots_ok_same with cm; [by apply same_nodes_sym|done]).
  assert (dict_get cm1 k = Some node) as Hk'.
  { rewrite Hne1; [done|]. intros Hin. apply (Hk1 k); [done|by left]. }
  assert (parent_depths cm1 node = []) as Hpd.
  { apply parent_depths_absent. intros p Hp.
    apply same_nodes_None with cm; [by apply same_nodes_sym|by apply Habs]. }
  destruct (fallback_step_spec visited cm1 roots k Hok1) as (cm2&Hstep&Hs2&_).
  rewrite Hstep.
  destruct (fallback_fold_spec visited ks2 cm2 roots) as (cm'&->&_&Hne2&_).
  { apply roots_ok_same with cm1; [|done].
    by apply same_nodes_sym, same_nodes_strip. }
  simpl. unfold depth_of. rewrite Hne2 by done.
  unfold fallback_step in Hstep. rewrite Hk', Hpd in Hstep.
  rewrite decide_False in Hstep by done.
  destruct (parent_crates node) as [|p ps]; [done|].
  simpl in Hstep. injection Hstep as <-. by rewrite dict_get_set_eq.
Qed.

(** * Third pass: the backward walk *)

(** ** Loops that collect results *)

Section collect.
Context {A B C : Type} (F : B → result C) (G : C → list A).

Lemma collect_step_Ok acc b r :
  F b = Ok r → collect_step F G acc b = Ok (acc ++ G r).
Proof. unfold collect_step. by intros ->. Qed.

Lemma collect_step_Raise acc b e :
  F b = Raise e → collect_step F G acc b = Raise e.
Proof. unfold collect_step. by intros ->. Qed.

Lemma foldlM_collect_inv bs :
  ∀ acc res, foldlM (collect_step F G) acc bs = Ok res →
    ∃ rs, Forall2 (λ b r, F b = Ok r) bs rs ∧
          res = acc ++ concat (G <$> rs).
Proof.
  induction bs as [|b bs IH]; intros acc res; cbn [foldlM].
  - intros [= <-]. exists []. split; [constructor|]. csimpl.
    by rewrite app_nil_r.
  - destruct (F b) as [r|e] eqn:Hb.
    2: { by rewrite (collect_step_Raise _ _ _ Hb). }
    rewrite (collect_step_Ok _ _ _ Hb). simpl.
    intros (rs&Hrs&->)%IH. exists (r :: rs).
    split; [by constructor|]. csimpl. by rewrite app_assoc.
Qed.

Lemma foldlM_collect bs :
  ∀ acc, (∀ b, b ∈ bs → ∃ r, F b = Ok r) →
    ∃ res, foldlM (collect_step F G) acc bs = Ok res.
Proof.
  induction bs as [|b bs IH]; intros acc Hok; cbn [foldlM]; [by eexists|].
  destruct (Hok b) as [r Hb]; [by left|].
  rewrite (collect_step_Ok _ _ _ Hb). simpl.
  apply IH. intros ? ?. apply Hok. by right.
Qed.

Lemma collected_elem_of bs rs x :
  Forall2 (λ b r, F b = Ok r) bs rs → x ∈ concat (G <$> rs) →
  ∃ b r, b ∈ bs ∧ F b = Ok r ∧ x ∈ G r.
Proof.
  induction 1 as [|b r bs rs Hb _ IH]; csimpl.
  - by intros ?%elem_of_nil.
  - intros [Hx|Hx]%elem_of_app.
    + exists b, r. split_and!; [by left|done..].
    + destruct (IH Hx) as (b'&r'&?&?&?). exists b', r'.
      split_and!; [by right|done..].
Qed.

Lemma collected_covers bs rs b :
  Forall2 (λ b r, F b = Ok r) bs rs → b ∈ bs →
  ∃ r, F b = Ok r ∧ ∀ x, x ∈ G r → x ∈ concat (G <$> rs).
Proof.
  induction 1 as [|b' r bs rs Hb _ IH]; csimpl.
  - by intros ?%elem_of_nil.
  - intros [->|Hin]%elem_of_cons.
    + exists r. split; [done|]. intros x Hx. apply elem_of_app. by left.
    + destruct (IH Hin) as (r'&?&Hcov). exists r'. split; [done|].
      intros x Hx. apply elem_of_app. right. by apply Hcov.
Qed.

Lemma collected_nil bs rs b :
  Forall2 (λ b r, F b = Ok r) bs rs → concat (G <$> rs) = [] → b ∈ bs →
  ∃ r, F b = Ok r ∧ G r = [].
Proof.
  induction 1 as [|b' r bs rs Hb _ IH]; csimpl.
  - by intros _ ?%elem_of_nil.
  - intros [Hr Hrs]%app_eq_nil [->|Hin]%elem_of_cons; [by exists r|].
    by apply IH.
Qed.


End collect.

Lemma foldlM_ext {A B} (f g : A → B → result A) bs :
  (∀ a b, b ∈ bs → f a b = g a b) → ∀ a, foldlM f a bs = foldlM g a bs.
Proof.
  induction bs as [|b bs IH]; intros Hfg a; csimpl; [done|].
  rewrite Hfg by by left. destruct (g a b); simpl; [|done].
  apply IH. intros ? ? ?. apply Hfg. by right.
Qed.

(** ** One level of the walk *)

Lemma trace_to_roots_S fuel cm k vp :
  trace_to_roots (S fuel) cm k vp =
    if decide (k ∈ vp) then Ok []
    else
      match dict_get cm k with
      | None => Ok []
      | Some node =>
          if is_root node then Ok [[k]]
          else
            match parent_crates node with
            | [] => Ok [[k]]
            | _ :: _ =>
                all_paths ←
                  foldlM
                    (collect_step
                       (λ p, trace_to_roots fuel cm p (vp ∪ {[k]}))
                       (extend k))
                    [] (parent_crates node);
                match all_paths with
                | [] => Ok [[k]]
                | _ :: _ => Ok all_paths
                end
            end
      end.
Proof. reflexivity. Qed.

Lemma trace_to_roots_inv fuel cm k vp paths :
  trace_to_roots (S fuel) cm k vp = Ok paths → trace_case fuel cm k vp paths.
Proof.
  rewrite trace_to_roots_S.
  destruct (decide (k ∈ vp)) as [Hv|Hv]; [intros [= <-]; by constructor|].
  destruct (dict_get cm k) as [node|] eqn:Hk;
    [|intros [= <-]; by constructor].
  destruct (is_root node) eqn:Hr.
  { intros [= <-]. apply trace_root with node; auto. }
  destruct (parent_crates node) as [|p ps] eqn:Hp.
  { intros [= <-]. apply trace_root with node; auto. }
  rewrite <-Hp.
  destruct (foldlM _ [] (parent_crates node)) as [all_paths|e] eqn:Hfold;
    [|done].
  apply foldlM_collect_inv in Hfold as (rs&Hrs&->). simpl.
  assert (parent_crates node ≠ []) as Hne by by rewrite Hp.
  destruct (concat (extend k <$> rs)) as [|path rest] eqn:Hc;
    intros [= <-].
  - by apply trace_fallback with node rs.
  - rewrite <-Hc. apply trace_parents with node; [done..|]. by rewrite Hc.
Qed.

(** ** Termination: the walk never goes deeper than the number of keys *)

Lemma trace_to_roots_total cm fuel :
  ∀ k vp, size (key_set cm ∖ vp) < fuel →
    ∃ paths, trace_to_roots fuel cm k vp = Ok paths.
Proof.
  induction fuel as [|fuel IH]; intros k vp Hfuel; [lia|].
  rewrite trace_to_roots_S.
  destruct (decide (k ∈ vp)) as [Hv|Hv]; [by eexists|].
  destruct (dict_get cm k) as [node|] eqn:Hk; [|by eexists].
  destruct (is_root node); [by eexists|].
  destruct (parent_crates node) as [|p ps] eqn:Hp; [by eexists|].
  rewrite <-Hp.
  destruct (foldlM_collect (λ p, trace_to_roots fuel cm p (vp ∪ {[k]}))
              (extend k) (parent_crates node) []) as [all_paths ->].
  - intros p' _. apply IH.
    rewrite (size_unvisited_insert _ vp k) in Hfuel; [lia| |done].
    apply elem_of_key_set. by eexists.
  - simpl. destruct all_paths; by eexists.
Qed.

(** ** The walk and its budget *)



(** The walk on two records that list each other as their only parent:
    it steps to the other record, where the cycle guard cuts the only
    branch and the record stands for itself. *)
Lemma trace_to_roots_two_cycle cm fuel kf kg nf ng :
  kf ≠ kg → dict_get cm kf = Some nf → dict_get cm kg = Some ng →
  is_root nf = false → is_root ng = false →
  parent_crates nf = [kg] → parent_crates ng = [kf] →
  trace_to_roots (S (S (S fuel))) cm kf ∅ = Ok [[kf; kg]].
Proof.
  intros Hne Hf Hg Hrf Hrg Hpf Hpg.
  rewrite trace_to_roots_S, decide_False, Hf, Hrf, Hpf by set_solver.
  cbn [foldlM].
  rewrite (collect_step_Ok _ _ _ _ [[kg]]).
  { simpl. unfold extend. by rewrite filter_cons_True, filter_nil by done. }
  rewrite trace_to_roots_S, decide_False, Hg, Hrg, Hpg by set_solver.
  cbn [foldlM].
  rewrite (collect_step_Ok _ _ _ _ []); [done|].
  rewrite trace_to_roots_S, decide_True by set_solver. done.
Qed.

(** ** The shape of the paths *)

Lemma extend_elem_of k r p :
  p ∈ extend k r ↔ ∃ pp, p = k :: pp ∧ pp ≠ [] ∧ pp ∈ r.
Proof.
  unfold extend. rewrite list_elem_of_fmap.
  by setoid_rewrite list_elem_of_filter.
Qed.

Lemma extend_nil k r : extend k r = [] → ∀ pp, pp ∈ r → pp = [].
Proof.
  intros Hnil pp Hpp. destruct pp as [|x pp]; [done|]. exfalso.
  assert (k :: x :: pp ∈ extend k r) as Hin
    by (apply extend_elem_of; by exists (x :: pp)).
  rewrite Hnil in Hin. by apply elem_of_nil in Hin.
Qed.

Lemma trace_to_roots_paths cm fuel :
  ∀ k vp paths, trace_to_roots fuel cm k vp = Ok paths →
    (paths = [] → k ∈ vp ∨ dict_get cm k = None) ∧
    (∀ p, p ∈ paths →
       ∃ rest l, p = k :: rest ∧ parent_chain cm p ∧ last p = Some l ∧
         (root_key cm l ∨ dead_end cm (vp ∪ list_to_set p) l)).
Proof.
  induction fuel as [|fuel IH]; intros k vp paths Hrun; [done|].
  apply trace_to_roots_inv in Hrun.
  destruct Hrun as [Hv|Hv Hk|node Hv Hk Hroot|node rs Hv Hk Hr Hp Hrs Hnil
                   |node rs Hv Hk Hr Hp Hrs Hne].
  - split; [by left|]. by intros ? ?%elem_of_nil.
  - split; [by right|]. by intros ? ?%elem_of_nil.
  - split; [done|]. intros p ->%list_elem_of_singleton.
    exists [], k. split_and!; [done|constructor|done|].
    destruct (is_root node) eqn:Hr; [left; by exists node|].
    right. exists node. split_and!; [done..|].
    destruct Hroot as [?| ->]; [done|]. by intros ? ?%elem_of_nil.
  - split; [done|]. intros p ->%list_elem_of_singleton.
    exists [], k. split_and!; [done|constructor|done|].
    right. exists node. split_and!; [done..|]. intros q Hq.
    destruct (collected_nil _ _ _ _ q Hrs Hnil Hq) as (r&Hrq&Hext).
    destruct (IH _ _ _ Hrq) as [Hempty Hshape].
    destruct r as [|pp r].
    + destruct Hempty as [?|?]; [done|right; set_solver|by left].
    + destruct (Hshape pp) as (rest & ? & -> & _); [by left|].
      by specialize (extend_nil _ _ Hext (q :: rest) ltac:(by left)).
  - split; [done|]. intros p Hin.
    destruct (collected_elem_of _ _ _ _ _ Hrs Hin) as (q&r&Hq&Hrq&Hpr).
    apply extend_elem_of in Hpr as (pp&->&_&Hpp).
    destruct (IH _ _ _ Hrq) as [_ Hshape].
    destruct (Hshape pp Hpp) as (rest&l&->&Hchain&Hlast&Hend).
    exists (q :: rest), l. split_and!; [done| |done|].
    + by apply chain_cons with node.
    + destruct Hend as [?|(nl&?&?&Hps)]; [by left|right].
      exists nl. split_and!; [done..|]. intros p Hp'.
      destruct (Hps p Hp') as [?|?]; [by left|right; set_solver].
Qed.

(** The walk reads the index only through lookups, and never reads a
    depth. *)
Lemma trace_to_roots_same cm cm' fuel :
  same_nodes cm cm' →
  ∀ k vp, trace_to_roots fuel cm k vp = trace_to_roots fuel cm' k vp.
Proof.
  intros Hs. induction fuel as [|fuel IH]; intros k vp; [done|].
  rewrite !trace_to_roots_S.
  destruct (decide (k ∈ vp)); [done|].
  destruct (dict_get cm k) as [node|] eqn:Hk.
  - destruct (same_nodes_Some _ _ _ _ Hs Hk) as (node'&->&Hst).
    rewrite (static_is_root _ _ Hst), (static_parent_crates _ _ Hst).
    destruct (is_root node); [done|].
    destruct (parent_crates node) as [|q qs]; [done|].
    erewrite foldlM_ext; [done|].
    intros acc p _. unfold collect_step. by rewrite IH.
  - by rewrite (same_nodes_None _ _ _ Hs Hk).
Qed.

(** ** Choosing among the candidates *)

Lemma shortest_first_cons path q qs :
  shortest_first path (q :: qs) =
    shortest_first (if length q <? length path then q else path) qs.
Proof. reflexivity. Qed.

Lemma shortest_first_spec paths :
  ∀ path, ∃ l1 l2,
    path :: paths = l1 ++ shortest_first path paths :: l2 ∧
    (∀ q, q ∈ l1 → length (shortest_first path paths) < length q) ∧
    (∀ q, q ∈ l2 → length (shortest_first path paths) ≤ length q).
Proof.
  induction paths as [|q qs IH]; intros path.
  { exists [], []. split_and!; [done|by intros ? ?%elem_of_nil..]. }
  rewrite shortest_first_cons.
  destruct (Nat.ltb_spec (length q) (length path)) as [Hlt|Hge].
  - destruct (IH q) as (l1&l2&Heq&H1&H2).
    remember (shortest_first q qs) as best eqn:Hb. clear Hb.
    exists (path :: l1), l2. split_and!; [by rewrite Heq| |done].
    intros x [->|Hx]%elem_of_cons; [|by apply H1].
    destruct l1 as [|y l1]; simpl in Heq.
    + injection Heq as Heq _. rewrite <-Heq. lia.
    + injection Heq as <- _. specialize (H1 q ltac:(by left)). lia.
  - destruct (IH path) as (l1&l2&Heq&H1&H2).
    remember (shortest_first path qs) as best eqn:Hb. clear Hb.
    destruct l1 as [|y l1]; simpl in Heq.
    + injection Heq as <- ->. exists [], (q :: l2).
      split_and!; [done|by intros ? ?%elem_of_nil|].
      intros x [->|Hx]%elem_of_cons; [done|]. by apply H2.
    + injection Heq as <- ->. exists (path :: q :: l1), l2.
      split_and!; [done| |done].
      intros x [->|[->|Hx]%elem_of_cons]%elem_of_cons.
      * apply H1. by left.
      * specialize (H1 path ltac:(by left)). lia.
      * apply H1. by right.
Qed.

Lemma choose_lineage_elem_of k paths :
  paths ≠ [] → choose_lineage k paths ∈ paths.
Proof.
  destruct paths as [|path paths]; [done|]. intros _. simpl.
  destruct (shortest_first_spec paths path) as (l1&l2&->&_).
  apply elem_of_app. right. by left.
Qed.

(** ** The loop over the keys *)

Lemma lineage_step_Ok fuel cm acc k paths :
  trace_to_roots fuel cm k ∅ = Ok paths →
  lineage_step fuel cm acc k = Ok (dict_set acc k (choose_lineage k paths)).
Proof. unfold lineage_step. by intros ->. Qed.

Lemma lineage_fold_spec fuel cm ks :
  (∀ k, k ∈ ks → ∃ paths, trace_to_roots fuel cm k ∅ = Ok paths) →
  NoDup ks →
  ∀ acc, (∀ k, k ∈ ks → dict_get acc k = None) →
    ∃ lin, foldlM (lineage_step fuel cm) acc ks = Ok lin ∧
      dict_keys lin = dict_keys acc ++ ks ∧
      (∀ k, k ∉ ks → dict_get lin k = dict_get acc k) ∧
      (∀ k, k ∈ ks →
         ∃ paths, trace_to_roots fuel cm k ∅ = Ok paths ∧
                  dict_get lin k = Some (choose_lineage k paths)).
Proof.
  induction ks as [|k ks IH]; intros Htot Hnd acc Hfresh; cbn [foldlM].
  { exists acc. rewrite app_nil_r. split_and!; try done.
    by intros ? ?%elem_of_nil. }
  apply NoDup_cons in Hnd as [Hk Hnd].
  destruct (Htot k) as [paths Hpaths]; [by left|].
  rewrite (lineage_step_Ok _ _ _ _ _ Hpaths). simpl.
  destruct (IH) with (acc := dict_set acc k (choose_lineage k paths))
    as (lin&Hrun&Hkeys&Hother&Hin); [|done|..].
  { intros ? ?. apply Htot. by right. }
  { intros k' Hk'. rewrite dict_get_set_ne by (by intros ->).
    apply Hfresh. by right. }
  exists lin. split_and!; [done| | |].
  - rewrite Hkeys, dict_keys_set_None by (apply Hfresh; by left).
    by rewrite <-app_assoc.
  - intros k' [? ?]%not_elem_of_cons. rewrite Hother by done.
    by apply dict_get_set_ne.
  - intros k' [->|Hk']%elem_of_cons; [|by apply Hin].
    exists paths. split; [done|]. rewrite Hother by done.
    apply dict_get_set_eq.
Qed.





(** * The builder, pass by pass *)

Lemma build_inv crates :
  ∃ cm1 visited cm2 lin,
    build_supply_chain_graph crates =
      Ok {| total_crates := length cm2;
            root_crates := elements (first_pass crates).2;
            crates := cm2; lineages := lin |} ∧
    bfs_inv (first_pass crates).1 (first_pass crates).2 cm1 visited [] ∧
    strip cm2 = strip (first_pass crates).1 ∧
    fallback_pass cm1 visited (first_pass crates).2 =
      (cm2, (first_pass crates).2) ∧
    (∀ k, k ∈ visited → dict_get cm2 k = dict_get cm1 k) ∧
    dict_keys lin = dict_keys cm2 ∧
    (∀ k, k ∈ dict_keys cm2 →
       ∃ paths, trace_to_roots (S (length cm2)) cm2 k ∅ = Ok paths ∧
                dict_get lin k = Some (choose_lineage k paths)).
Proof.
  pose proof (first_pass_wf crates) as Hwf.
  unfold build_supply_chain_graph.
  destruct (first_pass crates) as [cm0 roots]; simpl in *.
  destruct (second_pass_spec cm0 roots) as (seeded&cm1&visited&->&Hbfs&Hinv).
  { apply Hwf. }
  { apply Hwf. }
  simpl. rewrite Hbfs. simpl.
  pose proof (inv_strip _ _ _ _ _ Hinv) as Hs1.
  destruct (fallback_pass_spec cm1 visited roots) as (cm2&Hfb&Hs2&Hvis).
  { apply roots_ok_same with cm0; [|by apply roots_ok_wf].
    by apply same_nodes_sym, same_nodes_strip. }
  rewrite Hfb.
  assert (strip cm2 = strip cm0) as Hs by congruence.
  assert (NoDup (dict_keys cm2)) as Hnd.
  { rewrite (strip_keys _ _ Hs). apply Hwf. }
  destruct (lineage_fold_spec (S (length cm2)) cm2 (dict_keys cm2))
    with (acc := @nil (string * list string)) as (lin&Hrun&Hkeys&_&Hlin);
    [|done|done|].
  { intros k _. apply trace_to_roots_total.
    assert (size (key_set cm2 ∖ ∅) ≤ length cm2); [|lia].
    rewrite <-dict_keys_length, <-(size_list_to_set (C:=gset string)) by done.
    apply subseteq_size. set_solver. }
  unfold third_pass. rewrite Hrun.
  exists cm1, visited, cm2, lin. by split_and!.
Qed.

(** * Properties of the built graph *)

(** ** Termination *)

(** With one level of recursion per key plus one, the builder returns on
    every list of records: the breadth-first loop is given one [popleft]
    per key of the index, neither budget is exhausted, and no lookup of
    the index fails. *)
Lemma build_returns records :
  ∃ g, build_supply_chain_graph records = Ok g.
Proof.
  destruct (build_inv records) as (cm1&visited&cm2&lin&Hbuild&_).
  by eexists.
Qed.

(** ** The lineage map *)

(** C10: the lineage map has exactly one entry per key of the node map,
    and every stored lineage is non-empty and starts with the key it is
    stored under. *)
Theorem lineages_keys_and_heads (records : list CrateDict.t)
    (g : SupplyChainGraph) :
  build_supply_chain_graph records = Ok g →
  dict_keys (lineages g) = dict_keys (crates g) ∧
  NoDup (dict_keys (lineages g)) ∧
  (∀ k, k ∈ dict_keys (crates g) → is_Some (lineage_of g k)) ∧
  (∀ k path, lineage_of g k = Some path → ∃ rest, path = k :: rest).
Proof.
  destruct (build_inv records) as (cm1&visited&cm2&lin&->&_&Hs&_&_&Hkeys&Hlin).
  intros [= <-]. unfold lineage_of. simpl.
  assert (NoDup (dict_keys cm2)) as Hnd.
  { rewrite (strip_keys _ _ Hs). apply first_pass_wf. }
  split_and!; [done|by rewrite Hkeys| |].
  - intros k Hk. destruct (Hlin k Hk) as (paths&_&->). by eexists.
  - intros k path Hpath.
    assert (k ∈ dict_keys cm2) as Hk.
    { rewrite <-Hkeys. apply dict_get_Some_keys. by eexists. }
    destruct (Hlin k Hk) as (paths&Hrun&Hget).
    rewrite Hget in Hpath. injection Hpath as <-.
    destruct (trace_to_roots_paths _ _ _ _ _ Hrun) as [Hnil Hshape].
    destruct paths as [|p paths].
    + simpl. by exists [].
    + destruct (Hshape (choose_lineage k (p :: paths))) as (rest&_&->&_).
      { by apply choose_lineage_elem_of. }
      by exists rest.
Qed.

Lemma lineages_keys_and_heads_witness :
  ∃ g, build_supply_chain_graph scenario_A = Ok g ∧
       dict_keys (lineages g) = dict_keys (crates g) ∧
       NoDup (dict_keys (lineages g)) ∧
       (∀ k, k ∈ dict_keys (crates g) → is_Some (lineage_of g k)) ∧
       (∀ k path, lineage_of g k = Some path → ∃ rest, path = k :: rest).
Proof.
  eexists. split; [vm_compute; reflexivity|].
  apply (lineages_keys_and_heads scenario_A). vm_compute; reflexivity.
Defined.

(** ** Root flags *)

Lemma build_node_static crates g k node :
  build_supply_chain_graph crates = Ok g → node_of g k = Some node →
  ∃ c, last_with_key k crates = Some c ∧ static node = make_node c.
Proof.
  destruct (build_inv crates) as (cm1&visited&cm2&lin&->&_&Hs&_).
  intros [= <-]. unfold node_of. simpl. intros Hk.
  destruct (strip_get_Some _ _ _ _ Hs Hk) as (node0&Hk0&Hst).
  rewrite first_pass_get in Hk0.
  destruct (last_with_key k crates) as [c|]; [|done].
  exists c. split; [done|]. injection Hk0 as <-. by rewrite <-Hst.
Qed.



(** ** Duplicate keys *)

Lemma build_last_record records g l1 c l2 :
  build_supply_chain_graph records = Ok g →
  records = l1 ++ c :: l2 →
  (∀ c', c' ∈ l2 → CrateDict.pubkey c' ≠ CrateDict.pubkey c) →
  ∃ node, node_of g (CrateDict.pubkey c) = Some node ∧
          static node = make_node c.
Proof.
  intros Hbuild Hsplit Hlast.
  pose proof (last_with_key_split _ _ _ _ Hsplit Hlast) as Hc.
  destruct (build_inv records) as (cm1&visited&cm2&lin&Hrun&_&Hs&_).
  destruct (node_of g (CrateDict.pubkey c)) as [node|] eqn:Hk.
  - exists node. split; [done|].
    destruct (build_node_static records _ _ node Hbuild Hk) as (c'&Hc'&?).
    congruence.
  - rewrite Hrun in Hbuild. injection Hbuild as <-.
    unfold node_of in Hk. simpl in Hk.
    apply dict_get_None_keys in Hk. exfalso. apply Hk.
    rewrite (strip_keys _ _ Hs), first_pass_keys.
    apply last_with_key_is_Some. by eexists.
Qed.

(** C9: the node map has one node per key; the node under a key carries
    the fields of the last record of the input with that key (the depth
    is the one field computed afterwards); and [total_crates] is the
    number of distinct keys of the input. *)
Theorem duplicates_last_wins (records : list CrateDict.t)
    (g : SupplyChainGraph) :
  build_supply_chain_graph records = Ok g →
  NoDup (dict_keys (crates g)) ∧
  (∀ k, k ∈ dict_keys (crates g) ↔ k ∈ CrateDict.pubkey <$> records) ∧
  total_crates g = length (crates g) ∧
  total_crates g =
    size (list_to_set (CrateDict.pubkey <$> records) : gset string) ∧
  (∀ l1 c l2,
     records = l1 ++ c :: l2 →
     (∀ c', c' ∈ l2 → CrateDict.pubkey c' ≠ CrateDict.pubkey c) →
     ∃ node, node_of g (CrateDict.pubkey c) = Some node ∧
             static node = make_node c).
Proof.
  intros Hbuild.
  destruct (build_inv records) as (cm1&visited&cm2&lin&Hrun&_&Hs&_).
  rewrite Hrun in Hbuild. injection Hbuild as <-. unfold node_of. simpl.
  assert (NoDup (dict_keys cm2)) as Hnd.
  { rewrite (strip_keys _ _ Hs). apply first_pass_wf. }
  assert (∀ k, k ∈ dict_keys cm2 ↔ k ∈ CrateDict.pubkey <$> records) as Hkeys.
  { intros k. rewrite (strip_keys _ _ Hs). apply first_pass_keys. }
  split_and!; [done..| |].
  - rewrite <-dict_keys_length, <-(size_list_to_set (C:=gset string)) by done.
    f_equal. apply set_eq. intros k. by rewrite !elem_of_list_to_set.
  - intros l1 c l2 Hsplit Hlast.
    by apply (build_last_record records _ l1 c l2 Hrun).
Qed.

Lemma duplicates_last_wins_witness :
  ∃ g, build_supply_chain_graph two_records_one_key = Ok g ∧
       total_crates g = 2 ∧
       ∃ node, node_of g "A" = Some node ∧
               static node = make_node (record "A" ["B"] []).
Proof.
  eexists. split; [vm_compute; reflexivity|].
  match goal with
  | |- total_crates ?g = _ ∧ _ =>
      destruct (duplicates_last_wins two_records_one_key g
                  ltac:(vm_compute; reflexivity)) as (_&_&_&_&Hlast)
  end.
  split; [reflexivity|].
  apply (Hlast [record "A" [] ["B"]; record "B" ["A"] []]
           (record "A" ["B"] []) []); [reflexivity|].
  intros c' Hc'. by apply elem_of_nil in Hc'.
Defined.

(** ** The shape of a lineage *)

Lemma build_lineage_candidates records g k path :
  build_supply_chain_graph records = Ok g → lineage_of g k = Some path →
  ∃ paths,
    trace_to_roots (S (length (crates g))) (crates g) k ∅ = Ok paths ∧
    paths ≠ [] ∧ path = choose_lineage k paths.
Proof.
  destruct (build_inv records) as (cm1&visited&cm2&lin&->&_&Hs&_&_&Hkeys&Hlin).
  intros [= <-]. unfold lineage_of. simpl. intros Hpath.
  assert (k ∈ dict_keys cm2) as Hk.
  { rewrite <-Hkeys. apply dict_get_Some_keys. by eexists. }
  destruct (Hlin k Hk) as (paths&Hrun&Hget).
  exists paths. split_and!; [done| |congruence].
  intros ->. destruct (trace_to_roots_paths _ _ _ _ _ Hrun) as [Hnil _].
  destruct Hnil as [?|Habs]; [done|set_solver|].
  apply dict_get_None_keys in Habs. done.
Qed.

Lemma build_root_key records g l :
  build_supply_chain_graph records = Ok g →
  root_key (crates g) l → l ∈ root_crates g.
Proof.
  pose proof (first_pass_wf records) as Hwf.
  destruct (build_inv records) as (cm1&visited&cm2&lin&->&_&Hs&_).
  intros [= <-]. simpl. intros (node&Hl&Hroot).
  apply elem_of_elements.
  destruct (strip_get_Some _ _ _ _ Hs Hl) as (node0&Hl0&Hst).
  apply (wf_root_in _ _ Hwf l node0 Hl0).
  by rewrite (static_is_root _ _ Hst).
Qed.

(** C1, as the code has it: a stored lineage runs from the key it is
    stored under towards an ancestor.  It begins with the key, each next
    key is a listed parent of the one before, and it ends with a key of
    the root set unless the walk fell back at its last key, a record
    that is not a root and whose listed parents are all missing from the
    snapshot or already on the path.  For the chain A, B (parent A),
    C (parent B) the lineage of C is [C, B, A]. *)
Theorem lineage_from_key_to_root :
  (∀ (records : list CrateDict.t) (g : SupplyChainGraph) (k : string)
     (path : list string),
     build_supply_chain_graph records = Ok g →
     lineage_of g k = Some path →
     ∃ rest l,
       path = k :: rest ∧ parent_chain (crates g) path ∧
       last path = Some l ∧
       (l ∈ root_crates g ∨ dead_end (crates g) (list_to_set path) l)) ∧
  (∃ g, build_supply_chain_graph scenario_A = Ok g ∧
        lineage_of g "C" = Some ["C"; "B"; "A"]).
Proof.
  split; [|eexists; split; vm_compute; reflexivity].
  intros records g k path Hbuild Hpath.
  destruct (build_lineage_candidates _ _ _ _ Hbuild Hpath)
    as (paths&Hrun&Hne&->).
  destruct (trace_to_roots_paths _ _ _ _ _ Hrun) as [_ Hshape].
  destruct (Hshape (choose_lineage k paths)) as (rest&l&Heq&Hchain&Hlast&Hend).
  { by apply choose_lineage_elem_of. }
  exists rest, l. split_and!; [done..|].
  destruct Hend as [Hroot|Hdead].
  - left. by apply build_root_key with records.
  - right. by rewrite (left_id_L ∅ (∪)) in Hdead.
Qed.

Lemma lineage_from_key_to_root_witness :
  ∃ g, build_supply_chain_graph scenario_A = Ok g ∧
    ∃ rest l,
      ["C"; "B"; "A"] = "C" :: rest ∧ parent_chain (crates g) ["C"; "B"; "A"] ∧
      last ["C"; "B"; "A"] = Some l ∧
      (l ∈ root_crates g ∨ dead_end (crates g) (list_to_set ["C"; "B"; "A"]) l).
Proof.
  eexists. split; [vm_compute; reflexivity|].
  eapply (proj1 lineage_from_key_to_root scenario_A _ "C");
    vm_compute; reflexivity.
Defined.

(** The claim as the specification words it fails on its own example:
    the lineage of C starts with C, which is not a root, and is not
    [A, B, C]. *)
Lemma lineage_root_first_counterexample :
  ∃ g path,
    build_supply_chain_graph scenario_A = Ok g ∧
    lineage_of g "C" = Some path ∧
    path ≠ ["A"; "B"; "C"] ∧
    head path = Some "C" ∧ last path = Some "A" ∧
    ("C" ∉ root_crates g) ∧ ("A" ∈ root_crates g).
Proof.
  do 2 eexists. split_and!; [vm_compute; reflexivity..| | | | |].
  - discriminate.
  - reflexivity.
  - reflexivity.
  - vm_compute. intros [H|H]%elem_of_cons; [discriminate|].
    by apply elem_of_nil in H.
  - vm_compute. by left.
Qed.

(** ** Records whose parents are all missing *)

Lemma creach_inv_child cm seeds k n :
  creach cm seeds k n →
  (k ∈ seeds ∧ n = 0) ∨
  ∃ u node, dict_get cm u = Some node ∧ k ∈ child_crates node.
Proof.
  destruct 1 as [k Hk|u c n _ (node&Hu&Hc&_)]; [by left|right].
  by exists u, node.
Qed.

(** C3, as the code has it: a record with a non-empty parents list none
    of which is in the snapshot is not promoted.  Its node keeps
    [is_root = false]; it is outside the root set unless another record
    with the same key lists no parents; and its depth is 0 provided no
    record lists it as a child (otherwise the forward search may reach
    it first). *)
Theorem orphan_not_promoted (records l1 l2 : list CrateDict.t)
    (c : CrateDict.t) (g : SupplyChainGraph) :
  build_supply_chain_graph records = Ok g →
  records = l1 ++ c :: l2 →
  (∀ c', c' ∈ l2 → CrateDict.pubkey c' ≠ CrateDict.pubkey c) →
  CrateDict.parent_crates c ≠ [] →
  (∀ p, p ∈ CrateDict.parent_crates c → p ∉ CrateDict.pubkey <$> records) →
  ∃ node,
    node_of g (CrateDict.pubkey c) = Some node ∧
    is_root node = false ∧
    ((∀ r, r ∈ records → CrateDict.pubkey r = CrateDict.pubkey c →
           CrateDict.parent_crates r ≠ []) →
     CrateDict.pubkey c ∉ root_crates g) ∧
    ((∀ r, r ∈ records → CrateDict.pubkey c ∉ CrateDict.child_crates r) →
     depth node = 0%Z).
Proof.
  intros Hbuild Hsplit Hlast Hps Habs.
  pose proof (first_pass_wf records) as Hwf.
  destruct (build_last_record records g l1 c l2 Hbuild Hsplit Hlast)
    as (node&Hnode&Hst).
  exists node. split; [done|].
  destruct (build_inv records)
    as (cm1&visited&cm2&lin&Hrun&Hinv&Hs&Hfb&Hvis&_).
  rewrite Hrun in Hbuild. injection Hbuild as <-.
  unfold node_of in *. simpl in *.
  set (k := CrateDict.pubkey c) in *.
  pose proof (f_equal parent_crates Hst) as Hparents. simpl in Hparents.
  split_and!.
  - pose proof (f_equal is_root Hst) as Hr. simpl in Hr. rewrite Hr.
    apply Nat.eqb_neq. by rewrite length_zero_iff_nil.
  - intros Hnoroot (r&Hr&Hkr&Hnil)%elem_of_elements%first_pass_roots.
    by apply (Hnoroot r).
  - intros Hnochild.
    pose proof (inv_strip _ _ _ _ _ Hinv) as Hs1.
    destruct (decide (k ∈ visited)) as [Hv|Hv].
    + destruct (inv_sound _ _ _ _ _ Hinv k Hv) as (n&Hreach&Hdepth).
      unfold depth_of in Hdepth. rewrite <-(Hvis k Hv) in Hdepth.
      rewrite Hnode in Hdepth. simpl in Hdepth.
      destruct (creach_inv_child _ _ _ _ Hreach) as [[_ ->]|(u&nu&Hu&Hc)];
        [done|exfalso].
      rewrite first_pass_get in Hu.
      destruct (last_with_key u records) as [r|] eqn:Hr; [|done].
      injection Hu as <-. apply last_with_key_Some in Hr as [Hr _].
      by apply (Hnochild r).
    + assert (strip cm2 = strip cm1) as Hs2 by congruence.
      destruct (strip_get_Some _ _ _ _ Hs2 Hnode) as (node1&Hk1&Hst1).
      pose proof (fallback_orphan cm1 visited (first_pass records).2 k node1)
        as Horphan.
      rewrite Hfb in Horphan. simpl in Horphan.
      unfold depth_of in Horphan. rewrite Hnode in Horphan. simpl in Horphan.
      apply Horphan; try done.
      * apply roots_ok_same with (first_pass records).1;
          [|by apply roots_ok_wf].
        by apply same_nodes_sym, same_nodes_strip.
      * rewrite (strip_keys _ _ Hs1). apply Hwf.
      * rewrite (static_parent_crates _ _ Hst1), Hparents. done.
      * intros p Hp. rewrite (static_parent_crates _ _ Hst1), Hparents in Hp.
        apply dict_get_None_keys. rewrite (strip_keys _ _ Hs1).
        rewrite first_pass_keys. by apply Habs.
Qed.

Lemma orphan_not_promoted_witness :
  ∃ g node,
    build_supply_chain_graph scenario_C = Ok g ∧
    node_of g "E" = Some node ∧ is_root node = false ∧ depth node = 0%Z.
Proof.
  eexists. eexists. split; [vm_compute; reflexivity|].
  match goal with
  | |- node_of ?g _ = _ ∧ _ =>
      destruct (orphan_not_promoted scenario_C [] []
                  (record "E" ["missing-key"] []) g
                  ltac:(vm_compute; reflexivity) eq_refl)
        as (node&Hnode&Hroot&_&Hdepth)
  end.
  - intros c' Hc'. by apply elem_of_nil in Hc'.
  - discriminate.
  - intros p ->%list_elem_of_singleton [H|H]%elem_of_cons;
      [discriminate|by apply elem_of_nil in H].
  - vm_compute in Hnode. injection Hnode as <-.
    split_and!; reflexivity.
Defined.

(** The specification's own orphan is left with [is_root = false] and
    outside the root set. *)
Lemma orphan_promoted_counterexample :
  ∃ g node,
    build_supply_chain_graph scenario_C = Ok g ∧
    node_of g "E" = Some node ∧
    is_root node = false ∧ root_crates g = [].
Proof. do 2 eexists. split_and!; vm_compute; reflexivity. Qed.

(** ** Cycles *)

(** The keys of a longer list extend those of a prefix, in order. *)
Lemma first_pass_keys_app l1 l2 :
  ∃ ks, dict_keys (first_pass (l1 ++ l2)).1 =
          dict_keys (first_pass l1).1 ++ ks.
Proof.
  induction l2 as [|c l2 IH] using rev_ind.
  { exists []. by rewrite !app_nil_r. }
  destruct IH as [ks Hks]. rewrite app_assoc, first_pass_snoc.
  destruct (first_pass (l1 ++ l2)) as [cm roots]. simpl in *.
  destruct (dict_get cm (CrateDict.pubkey c)) eqn:Hc.
  - exists ks. by rewrite dict_keys_set_Some.
  - exists (ks ++ [CrateDict.pubkey c]).
    by rewrite dict_keys_set_None, Hks, app_assoc.
Qed.

Lemma first_pass_keys_order l1 l2 kf kg :
  kf ∈ CrateDict.pubkey <$> l1 → kg ∉ CrateDict.pubkey <$> l1 →
  kg ∈ CrateDict.pubkey <$> l1 ++ l2 →
  ∃ a m d, dict_keys (first_pass (l1 ++ l2)).1 = a ++ kf :: m ++ kg :: d.
Proof.
  intros Hf Hg Hg'. destruct (first_pass_keys_app l1 l2) as [ks Hks].
  apply first_pass_keys in Hf, Hg'. rewrite <-first_pass_keys in Hg.
  rewrite Hks in Hg'. apply elem_of_app in Hg' as [?|Hg']; [done|].
  apply list_elem_of_split in Hf as (a&b&Hf), Hg' as (c&d&->).
  exists a, (b ++ c), d. by rewrite Hks, Hf, <-!app_assoc.
Qed.

Lemma fallback_step_one_parent visited cm roots k node p np :
  dict_get cm k = Some node → k ∉ visited →
  parent_crates node = [p] → dict_get cm p = Some np →
  (0 ≤ depth np)%Z →
  fallback_step visited (cm, roots) k =
    (dict_set cm k (set_depth node (depth np + 1)), roots).
Proof.
  intros Hk Hv Hp Hnp Hpos. unfold fallback_step, parent_depths.
  rewrite Hk, decide_False, Hp by done. csimpl. rewrite Hnp. simpl.
  by rewrite (proj2 (Z.leb_le _ _) Hpos).
Qed.

(** The pass over the unvisited nodes on two unvisited records that list
    each other as their only parent: the one that comes first in the
    index reads the placeholder of the other, the second reads what the
    first was just given. *)
Lemma fallback_two_cycle cm visited roots a m d kf kg nf ng :
  roots_ok cm roots → NoDup (dict_keys cm) →
  dict_keys cm = a ++ kf :: m ++ kg :: d →
  dict_get cm kf = Some nf → dict_get cm kg = Some ng →
  kf ∉ visited → kg ∉ visited →
  parent_crates nf = [kg] → parent_crates ng = [kf] →
  depth ng = 0%Z →
  ∃ cm', fallback_pass cm visited roots = (cm', roots) ∧
    dict_get cm' kf = Some (set_depth nf 1) ∧
    dict_get cm' kg = Some (set_depth ng 2).
Proof.
  intros Hok Hnd Hks Hf Hg Hvf Hvg Hpf Hpg Hdg. unfold fallback_pass.
  rewrite Hks in Hnd |- *.
  apply NoDup_app in Hnd as (_&Ha&[Hfm Hnd]%NoDup_cons).
  apply NoDup_app in Hnd as (_&Hm&[Hgd _]%NoDup_cons).
  assert (kf ≠ kg) as Hne.
  { intros ->. apply Hfm. apply elem_of_app. right. by left. }
  assert ((kf ∉ a) ∧ (kg ∉ a)) as [Hfa Hga].
  { split; intros Hin; apply (Ha _ Hin); [by left|].
    right. apply elem_of_app. right. by left. }
  assert ((kf ∉ m) ∧ (kg ∉ m)) as [Hfm' Hgm].
  { split; intros Hin; [|apply (Hm _ Hin); by left].
    apply Hfm. apply elem_of_app. by left. }
  assert (kf ∉ d) as Hfd.
  { intros Hin. apply Hfm. apply elem_of_app. right. by right. }
  assert (∀ cm' : dict CrateNode, strip cm' = strip cm → roots_ok cm' roots)
    as Hok'.
  { intros cm' Hs. apply roots_ok_same with cm; [|done].
    by apply same_nodes_sym, same_nodes_strip. }
  rewrite foldl_app. cbn [foldl].
  destruct (fallback_fold_spec visited a cm roots Hok) as (cm1&->&Hs1&Hne1&_).
  assert (dict_get cm1 kf = Some nf) as Hf1 by by rewrite Hne1.
  assert (dict_get cm1 kg = Some ng) as Hg1 by by rewrite Hne1.
  rewrite (fallback_step_one_parent visited cm1 roots kf nf kg ng
             Hf1 Hvf Hpf Hg1 ltac:(lia)).
  rewrite Hdg. change (0 + 1)%Z with 1%Z.
  set (cm2 := dict_set cm1 kf (set_depth nf 1)).
  assert (strip cm2 = strip cm) as Hs2.
  { rewrite <-Hs1. by apply strip_set with nf. }
  rewrite foldl_app. cbn [foldl].
  destruct (fallback_fold_spec visited m cm2 roots (Hok' _ Hs2))
    as (cm3&->&Hs3&Hne3&_).
  assert (dict_get cm3 kf = Some (set_depth nf 1)) as Hf3.
  { rewrite Hne3 by done. apply dict_get_set_eq. }
  assert (dict_get cm3 kg = Some ng) as Hg3.
  { rewrite Hne3 by done. unfold cm2.
    by rewrite dict_get_set_ne. }
  rewrite (fallback_step_one_parent visited cm3 roots kg ng kf
             (set_depth nf 1) Hg3 Hvg Hpg Hf3 ltac:(simpl; lia)).
  change (depth (set_depth nf 1) + 1)%Z with 2%Z.
  set (cm4 := dict_set cm3 kg (set_depth ng 2)).
  assert (strip cm4 = strip cm) as Hs4.
  { rewrite <-Hs2, <-Hs3. by apply strip_set with ng. }
  destruct (fallback_fold_spec visited d cm4 roots (Hok' _ Hs4))
    as (cm5&->&_&Hne5&_).
  exists cm5. split; [done|]. rewrite !Hne5 by done. unfold cm4.
  split; [by rewrite dict_get_set_ne|apply dict_get_set_eq].
Qed.

(** C6, as the code has it: two records that list each other as their
    only parent, in any snapshot in which the forward search reaches
    neither.  [f] and [g_] are the records that end up under the two
    keys, and the key of [f] is the first of the two to enter the index.
    Neither is promoted.  The pass over the unvisited nodes reads the
    depth of the other record where the loop stands: [f] gets depth 1
    (one more than the placeholder 0 of [g_]) and [g_] gets depth 2.
    Each lineage has two keys: the walk steps to the other record and
    falls back there, where the cycle guard cuts the only branch. *)
Theorem two_cycle_depths_and_lineages (records l1 l2 : list CrateDict.t)
    (f g_ : CrateDict.t) (gr : SupplyChainGraph) :
  build_supply_chain_graph records = Ok gr →
  last_with_key (CrateDict.pubkey f) records = Some f →
  last_with_key (CrateDict.pubkey g_) records = Some g_ →
  CrateDict.parent_crates f = [CrateDict.pubkey g_] →
  CrateDict.parent_crates g_ = [CrateDict.pubkey f] →
  records = l1 ++ l2 →
  CrateDict.pubkey f ∈ CrateDict.pubkey <$> l1 →
  CrateDict.pubkey g_ ∉ CrateDict.pubkey <$> l1 →
  ¬ reached records (CrateDict.pubkey f) →
  ¬ reached records (CrateDict.pubkey g_) →
  ∃ nf ng,
    node_of gr (CrateDict.pubkey f) = Some nf ∧
    node_of gr (CrateDict.pubkey g_) = Some ng ∧
    is_root nf = false ∧ is_root ng = false ∧
    (CrateDict.pubkey f ∉ root_crates gr) ∧
    (CrateDict.pubkey g_ ∉ root_crates gr) ∧
    depth nf = 1%Z ∧ depth ng = 2%Z ∧
    lineage_of gr (CrateDict.pubkey f) =
      Some [CrateDict.pubkey f; CrateDict.pubkey g_] ∧
    lineage_of gr (CrateDict.pubkey g_) =
      Some [CrateDict.pubkey g_; CrateDict.pubkey f].
Proof.
  set (kf := CrateDict.pubkey f). set (kg := CrateDict.pubkey g_).
  intros Hbuild Hlf Hlg Hpf Hpg Hrec Hf1 Hg1 Hnf Hng.
  assert (kf ≠ kg) as Hne by (intros Heq; by rewrite Heq in Hf1).
  pose proof (first_pass_wf records) as Hwf.
  destruct (build_inv records)
    as (cm1&visited&cm2&lin&Hrun&Hinv&Hs&Hfb&_&_&Hlin).
  rewrite Hrun in Hbuild. injection Hbuild as <-.
  unfold node_of, lineage_of, reached in *. simpl.
  pose proof (inv_strip _ _ _ _ _ Hinv) as Hs1.
  assert (∀ k c, last_with_key k records = Some c →
            ∃ node, dict_get cm1 k = Some node ∧
                    static node = make_node c) as Hnode.
  { intros k c Hc.
    destruct (strip_get_Some (first_pass records).1 cm1 k (make_node c)) as (node&?&?);
      [done|by rewrite first_pass_get, Hc|].
    by exists node. }
  destruct (Hnode _ _ Hlf) as (nf&Hf&Hsf).
  destruct (Hnode _ _ Hlg) as (ng&Hg&Hsg).
  assert (∀ k, ¬ (∃ n, creach (first_pass records).1 (first_pass records).2 k n) → k ∉ visited) as Hunvisited.
  { intros k Hk Hv. apply Hk.
    destruct (inv_sound _ _ _ _ _ Hinv k Hv) as (n&?&_). by exists n. }
  pose proof (Hunvisited _ Hnf) as Hvf.
  pose proof (Hunvisited _ Hng) as Hvg.
  assert (parent_crates nf = [kg]) as Hpf'.
  { apply (f_equal parent_crates) in Hsf. simpl in Hsf. congruence. }
  assert (parent_crates ng = [kf]) as Hpg'.
  { apply (f_equal parent_crates) in Hsg. simpl in Hsg. congruence. }
  assert (is_root nf = false) as Hrf.
  { apply (f_equal is_root) in Hsf. simpl in Hsf. by rewrite Hsf, Hpf. }
  assert (is_root ng = false) as Hrg.
  { apply (f_equal is_root) in Hsg. simpl in Hsg. by rewrite Hsg, Hpg. }
  assert (depth ng = 0%Z) as Hdg.
  { pose proof (inv_unvisited _ _ _ _ _ Hinv kg Hvg) as Hd.
    unfold depth_of in Hd. by rewrite Hg, first_pass_get, Hlg in Hd. }
  destruct (first_pass_keys_order l1 l2 kf kg) as (a&m&d&Hks); [done..| |].
  { rewrite <-Hrec. apply last_with_key_Some in Hlg as [? ?].
    by apply list_elem_of_fmap_2. }
  rewrite <-Hrec in Hks.
  rewrite <-(strip_keys _ _ Hs1) in Hks.
  assert (NoDup (dict_keys cm1)) as Hnd.
  { rewrite (strip_keys _ _ Hs1). apply Hwf. }
  destruct (fallback_two_cycle cm1 visited (first_pass records).2 a m d
              kf kg nf ng)
    as (cm'&Hfb'&Hf2&Hg2); try done.
  { apply roots_ok_same with (first_pass records).1; [|by apply roots_ok_wf].
    by apply same_nodes_sym, same_nodes_strip. }
  rewrite Hfb in Hfb'. injection Hfb' as <-.
  assert (∀ k, ¬ (∃ n, creach (first_pass records).1 (first_pass records).2 k n) → k ∉ elements (first_pass records).2) as Hnr.
  { intros k Hk Hin%elem_of_elements. apply Hk. exists 0. by constructor. }
  assert (∃ n, length cm2 = S (S n)) as [n Hlen].
  { rewrite <-dict_keys_length, (strip_keys _ _ Hs), <-(strip_keys _ _ Hs1),
      Hks.
    rewrite length_app. cbn [length]. rewrite length_app. cbn [length].
    exists (length a + (length m + length d)). lia. }
  exists (set_depth nf 1), (set_depth ng 2).
  split_and!; try done; [by apply Hnr..| |].
  - destruct (Hlin kf) as (paths&Hpaths&->).
    { apply dict_get_Some_keys. by eexists. }
    rewrite Hlen, (trace_to_roots_two_cycle cm2 n kf kg
                     (set_depth nf 1) (set_depth ng 2)) in Hpaths by done.
    by injection Hpaths as <-.
  - destruct (Hlin kg) as (paths&Hpaths&->).
    { apply dict_get_Some_keys. by eexists. }
    rewrite Hlen, (trace_to_roots_two_cycle cm2 n kg kf
                     (set_depth ng 2) (set_depth nf 1)) in Hpaths by done.
    by injection Hpaths as <-.
Qed.

Lemma cycle_beside_root_reached k : reached cycle_beside_root k → k = "R".
Proof.
  intros [n Hn]. induction Hn as [k Hk|u c n _ -> (node&Hu&Hc&_)].
  - apply first_pass_roots in Hk as (r&Hr&<-&Hp). by in_records Hr.
  - vm_compute in Hu. injection Hu as <-. by apply elem_of_nil in Hc.
Qed.

Lemma two_cycle_depths_and_lineages_witness :
  ∃ gr nf ng,
    build_supply_chain_graph cycle_beside_root = Ok gr ∧
    node_of gr "F" = Some nf ∧ node_of gr "G" = Some ng ∧
    is_root nf = false ∧ is_root ng = false ∧
    ("F" ∉ root_crates gr) ∧ ("G" ∉ root_crates gr) ∧
    depth nf = 1%Z ∧ depth ng = 2%Z ∧
    lineage_of gr "F" = Some ["F"; "G"] ∧
    lineage_of gr "G" = Some ["G"; "F"].
Proof.
  eexists.
  match goal with
  | |- ∃ nf ng, build_supply_chain_graph _ = Ok ?g ∧ _ =>
      destruct (two_cycle_depths_and_lineages cycle_beside_root
                  [record "R" [] []; record "F" ["G"] ["G"]]
                  [record "G" ["F"] ["F"]]
                  (record "F" ["G"] ["G"]) (record "G" ["F"] ["F"]) g)
        as (nf&ng&H)
  end.
  - vm_compute; reflexivity.
  - vm_compute; reflexivity.
  - vm_compute; reflexivity.
  - reflexivity.
  - reflexivity.
  - reflexivity.
  - apply (bool_decide_unpack _). by vm_compute.
  - apply (bool_decide_unpack _). by vm_compute.
  - by intros ?%cycle_beside_root_reached.
  - by intros ?%cycle_beside_root_reached.
  - exists nf, ng. split; [vm_compute; reflexivity|exact H].
Defined.

(** On the specification's own cycle neither depth is 0 and neither
    lineage is a singleton. *)
Lemma two_cycle_counterexample :
  ∃ gr nf ng,
    build_supply_chain_graph scenario_D = Ok gr ∧
    node_of gr "F" = Some nf ∧ node_of gr "G" = Some ng ∧
    depth nf ≠ 0%Z ∧ depth ng ≠ 0%Z ∧
    lineage_of gr "F" ≠ Some ["F"] ∧ lineage_of gr "G" ≠ Some ["G"].
Proof.
  do 3 eexists. split_and!; [vm_compute; reflexivity..| | | |];
    vm_compute; discriminate.
Qed.

(** ** Distances in the snapshot *)

Lemma creach_forward records k n :
  creach (first_pass records).1 (first_pass records).2 k n →
  forward records k n.
Proof.
  induction 1 as [k Hk|u c n _ IH (node&Hu&Hc&Hin)].
  - apply first_pass_roots in Hk as (r&?&<-&?). by constructor.
  - rewrite first_pass_get in Hu.
    destruct (last_with_key u records) as [r|] eqn:Hr; [|done].
    injection Hu as <-. apply last_with_key_Some in Hr as [Hr <-].
    apply forward_step with r; [done..|].
    by apply first_pass_keys, dict_get_Some_keys.
Qed.

Lemma forward_creach records k n :
  NoDup (CrateDict.pubkey <$> records) →
  forward records k n →
  creach (first_pass records).1 (first_pass records).2 k n.
Proof.
  intros Hnd. induction 1 as [r Hr Hp|r c n _ IH Hr Hc Hin].
  - constructor. apply first_pass_roots. by exists r.
  - apply creach_step with (CrateDict.pubkey r); [done|].
    exists (make_node r). split_and!; [|done|].
    + by rewrite first_pass_get, last_with_key_NoDup.
    + by apply dict_get_Some_keys, first_pass_keys.
Qed.

(** Where the links agree, records that share a key list the same
    children among the keys of the snapshot, so the forward paths of the
    snapshot are those of the index whichever record ends up under a
    key. *)
Lemma forward_creach_consistent records k n :
  children_consistent records →
  forward records k n →
  creach (first_pass records).1 (first_pass records).2 k n.
Proof.
  intros Hcons. induction 1 as [r Hr Hp|r c n _ IH Hr Hc Hin].
  - constructor. apply first_pass_roots. by exists r.
  - apply creach_step with (CrateDict.pubkey r); [done|].
    destruct (last_with_key_is_Some (CrateDict.pubkey r) records) as [_ Hl].
    destruct Hl as [r' Hr']; [by apply list_elem_of_fmap_2|].
    pose proof Hr' as Hlast.
    apply last_with_key_Some in Hr' as [Hr' Hkey].
    apply list_elem_of_fmap in Hin as (rc&->&Hrc).
    exists (make_node r'). split_and!.
    + by rewrite first_pass_get, Hlast.
    + simpl. apply (Hcons r' rc Hr' Hrc). rewrite Hkey.
      by apply (Hcons r rc Hr Hrc).
    + apply dict_get_Some_keys, first_pass_keys.
      by apply list_elem_of_fmap_2.
Qed.

Lemma hops_key records k n :
  hops records k n → ∃ r, r ∈ records ∧ CrateDict.pubkey r = k.
Proof. destruct 1 as [r|r]; by exists r. Qed.

Lemma hops_forward records k n :
  children_consistent records → hops records k n → forward records k n.
Proof.
  intros Hcons. induction 1 as [r Hr Hp|r p n Hr Hp Hhops IH].
  - by constructor.
  - destruct (hops_key _ _ _ Hhops) as (rp&Hrp&<-).
    apply forward_step with rp; [done..| |by apply list_elem_of_fmap_2].
    by apply Hcons.
Qed.

Lemma forward_hops records k n :
  children_consistent records → forward records k n → hops records k n.
Proof.
  intros Hcons. induction 1 as [r Hr Hp|r c n _ IH Hr Hc Hin].
  - by constructor.
  - apply list_elem_of_fmap in Hin as (rc&->&Hrc).
    apply hops_step with (CrateDict.pubkey r); [done| |done].
    by apply Hcons.
Qed.

Lemma every_key_hops records :
  acyclic records → parents_present records →
  ∀ r, r ∈ records → ∃ n, hops records (CrateDict.pubkey r) n.
Proof.
  intros [rank Hrank] Hpresent.
  assert (∀ m r, rank (CrateDict.pubkey r) < m → r ∈ records →
                 ∃ n, hops records (CrateDict.pubkey r) n) as Hind.
  { induction m as [|m IH]; intros r Hm Hr; [lia|].
    destruct (CrateDict.parent_crates r) as [|p ps] eqn:Hp.
    - exists 0. by constructor.
    - assert (p ∈ CrateDict.parent_crates r) as Hin by (rewrite Hp; by left).
      pose proof (Hpresent r p Hr Hin) as Hpin.
      apply list_elem_of_fmap in Hpin as (rp&Heq&Hrp).
      destruct (IH rp) as [n Hn]; [|done|].
      + specialize (Hrank r _ Hr Hin). rewrite Heq in Hrank. lia.
      + exists (S n). apply hops_step with p; [done..|]. by rewrite Heq. }
  intros r Hr. by apply (Hind (S (rank (CrateDict.pubkey r)))); [lia|].
Qed.

(** ** Depths *)

(** What the second pass and the pass over the unvisited nodes leave in
    the node map for a key the forward search reaches. *)
Lemma build_depth_reached records g k n :
  build_supply_chain_graph records = Ok g →
  creach (first_pass records).1 (first_pass records).2 k n →
  ∃ node m,
    node_of g k = Some node ∧ depth node = Z.of_nat m ∧ m ≤ n ∧
    creach (first_pass records).1 (first_pass records).2 k m ∧
    ∀ n', creach (first_pass records).1 (first_pass records).2 k n' → m ≤ n'.
Proof.
  destruct (build_inv records)
    as (cm1&visited&cm2&lin&->&Hinv&Hs&Hfb&Hvis&_).
  intros [= <-] Hreach. unfold node_of. simpl.
  destruct (bfs_inv_complete _ _ _ _ _ _ Hinv Hreach) as [Hv Hle].
  destruct (inv_sound _ _ _ _ _ Hinv k Hv) as (m&Hm&Hdepth).
  destruct (inv_visited_keys _ _ _ _ _ Hinv k Hv) as [node0 Hk0].
  destruct (strip_get_Some _ _ _ _ (eq_sym Hs) Hk0) as (node&Hk&_).
  exists node, m. unfold depth_of in *. rewrite <-(Hvis k Hv), Hk in *.
  simpl in *. split_and!; [done|done|lia|done|].
  intros n' Hn'. destruct (bfs_inv_complete _ _ _ _ _ _ Hinv Hn') as [_ Hle'].
  unfold depth_of in Hle'. rewrite <-(Hvis k Hv), Hk in Hle'.
  simpl in Hle'. lia.
Qed.

(** C2, as the code has it: the depth is computed along the child links,
    so it counts hops along the parent links only when the two agree.
    For an acyclic snapshot in which every listed parent is present and
    the child links mirror the parent links, the depth of every key is
    the least number of hops from it to a record with no parents.  Keys
    may repeat: where the links agree, the records under one key list the
    same parents. *)
Theorem depth_is_shortest_hops (records : list CrateDict.t)
    (g : SupplyChainGraph) (k : string) (node : CrateNode) :
  acyclic records → parents_present records →
  children_consistent records →
  build_supply_chain_graph records = Ok g →
  node_of g k = Some node →
  ∃ n, depth node = Z.of_nat n ∧ hops records k n ∧
       ∀ m, hops records k m → n ≤ m.
Proof.
  intros Hacyc Hpresent Hcons Hbuild Hk.
  destruct (build_node_static _ _ _ _ Hbuild Hk) as (c&Hc&_).
  apply last_with_key_Some in Hc as [Hc <-].
  destruct (every_key_hops _ Hacyc Hpresent c Hc) as [n0 Hn0].
  apply (hops_forward _ _ _ Hcons),
    (forward_creach_consistent _ _ _ Hcons) in Hn0.
  destruct (build_depth_reached _ _ _ _ Hbuild Hn0)
    as (node'&n&Hk'&Hdepth&_&Hreach&Hmin).
  rewrite Hk in Hk'. injection Hk' as <-.
  exists n. split_and!; [done| |].
  - by apply forward_hops, creach_forward.
  - intros m Hm. by apply Hmin, forward_creach_consistent, hops_forward.
Qed.

Lemma scenario_A_NoDup : NoDup (CrateDict.pubkey <$> scenario_A).
Proof. apply (bool_decide_unpack _). by vm_compute. Qed.

Lemma scenario_A_acyclic : acyclic scenario_A.
Proof.
  exists rank_ABC. intros r p Hr Hp. in_records Hr; simpl in Hp.
  - by apply elem_of_nil in Hp.
  - apply list_elem_of_singleton in Hp as ->. vm_compute. lia.
  - apply list_elem_of_singleton in Hp as ->. vm_compute. lia.
Qed.

Lemma scenario_A_parents_present : parents_present scenario_A.
Proof.
  intros r p Hr Hp. in_records Hr; simpl in Hp.
  - by apply elem_of_nil in Hp.
  - apply list_elem_of_singleton in Hp as ->. set_solver.
  - apply list_elem_of_singleton in Hp as ->. set_solver.
Qed.

Lemma scenario_A_children_consistent : children_consistent scenario_A.
Proof.
  intros r1 r2 Hr1 Hr2. in_records Hr1; in_records Hr2; simpl;
    rewrite ?list_elem_of_singleton, ?elem_of_nil; split; done.
Qed.

Lemma depth_is_shortest_hops_witness :
  ∃ g node,
    build_supply_chain_graph scenario_A = Ok g ∧
    node_of g "C" = Some node ∧
    ∃ n, depth node = Z.of_nat n ∧ hops scenario_A "C" n ∧
         ∀ m, hops scenario_A "C" m → n ≤ m.
Proof.
  do 2 eexists. split; [vm_compute; reflexivity|].
  split; [vm_compute; reflexivity|].
  eapply (depth_is_shortest_hops scenario_A _ "C").
  - exact scenario_A_acyclic.
  - exact scenario_A_parents_present.
  - exact scenario_A_children_consistent.
  - vm_compute; reflexivity.
  - vm_compute; reflexivity.
Defined.

(** The claim without the agreement of the links fails: the snapshot is
    acyclic and holds every listed parent, C is two hops from the only
    root, and its depth is 1. *)
Lemma depth_counterexample :
  acyclic unlinked_chain ∧ parents_present unlinked_chain ∧
  ∃ g node,
    build_supply_chain_graph unlinked_chain = Ok g ∧
    node_of g "C" = Some node ∧ depth node = 1%Z ∧
    hops unlinked_chain "C" 2 ∧
    ∀ m, hops unlinked_chain "C" m → 2 ≤ m.
Proof.
  split_and!.
  - exists rank_ABC. intros r p Hr Hp. in_records Hr; simpl in Hp.
    + apply list_elem_of_singleton in Hp as ->. vm_compute. lia.
    + apply list_elem_of_singleton in Hp as ->. vm_compute. lia.
    + by apply elem_of_nil in Hp.
  - intros r p Hr Hp. in_records Hr; simpl in Hp.
    + apply list_elem_of_singleton in Hp as ->. set_solver.
    + apply list_elem_of_singleton in Hp as ->. set_solver.
    + by apply elem_of_nil in Hp.
  - do 2 eexists. split_and!; [vm_compute; reflexivity..| |].
    + apply (hops_step _ (record "C" ["B"] []) "B"); [set_solver..|].
      apply (hops_step _ (record "B" ["A"] []) "A"); [set_solver..|].
      apply (hops_root _ (record "A" [] [])); [set_solver|done].
    + intros m Hm.
      inversion Hm as [r Hr Hp Hk|r p n Hr Hp Hn Hk]; subst;
        in_records Hr; try discriminate.
      apply list_elem_of_singleton in Hp as ->.
      inversion Hn as [r Hr Hp Hk'|r p n' Hr Hp Hn' Hk']; subst;
        in_records Hr; try discriminate. lia.
Qed.

(** ** The order of the input *)

Lemma last_with_key_perm records records' k :
  NoDup (CrateDict.pubkey <$> records) → records ≡ₚ records' →
  last_with_key k records = last_with_key k records'.
Proof.
  intros Hnd Hperm.
  assert (NoDup (CrateDict.pubkey <$> records')) as Hnd' by by rewrite <-Hperm.
  destruct (last_with_key k records) as [c|] eqn:Hc.
  - apply last_with_key_Some in Hc as [Hc <-]. symmetry.
    apply last_with_key_NoDup; [done|]. by rewrite <-Hperm.
  - destruct (last_with_key k records') as [c'|] eqn:Hc'; [|done].
    apply last_with_key_Some in Hc' as [Hc' <-].
    rewrite last_with_key_NoDup in Hc; [done..|]. by rewrite Hperm.
Qed.

Lemma first_pass_perm_nodes records records' :
  NoDup (CrateDict.pubkey <$> records) → records ≡ₚ records' →
  same_nodes (first_pass records).1 (first_pass records').1.
Proof.
  intros Hnd Hperm k.
  by rewrite !first_pass_get, (last_with_key_perm _ _ _ Hnd Hperm).
Qed.

Lemma first_pass_perm_roots records records' :
  records ≡ₚ records' → (first_pass records).2 = (first_pass records').2.
Proof.
  intros Hperm. apply set_eq. intros r. rewrite !first_pass_roots.
  by setoid_rewrite Hperm.
Qed.

Lemma first_pass_perm_length records records' :
  records ≡ₚ records' →
  length (first_pass records).1 = length (first_pass records').1.
Proof.
  intros Hperm. rewrite <-!dict_keys_length. apply Permutation_length.
  apply NoDup_Permutation; [apply first_pass_wf..|].
  intros k. rewrite !first_pass_keys. by rewrite Hperm.
Qed.

Lemma forward_perm records records' k n :
  records ≡ₚ records' → forward records k n → forward records' k n.
Proof.
  intros Hperm. induction 1 as [r Hr Hp|r c n _ IH Hr Hc Hin].
  - constructor; [by rewrite <-Hperm|done].
  - apply forward_step with r; [done|by rewrite <-Hperm|done|].
    by rewrite <-Hperm.
Qed.

Lemma build_same_nodes records g :
  build_supply_chain_graph records = Ok g →
  same_nodes (crates g) (first_pass records).1 ∧
  length (crates g) = length (first_pass records).1 ∧
  dict_keys (lineages g) = dict_keys (crates g).
Proof.
  destruct (build_inv records) as (cm1&visited&cm2&lin&->&_&Hs&_&_&Hkeys&_).
  intros [= <-]. simpl.
  split_and!; [by apply same_nodes_strip|by apply strip_length|done].
Qed.

(** With distinct keys, the records under the keys, the root set and the
    lineages do not depend on the order of the input. *)
Lemma build_perm_static records records' g g' :
  NoDup (CrateDict.pubkey <$> records) → records ≡ₚ records' →
  build_supply_chain_graph records = Ok g →
  build_supply_chain_graph records' = Ok g' →
  same_nodes (crates g) (crates g') ∧
  length (crates g) = length (crates g') ∧
  root_crates g = root_crates g'.
Proof.
  intros Hnd Hperm Hb Hb'.
  destruct (build_same_nodes _ _ Hb) as (Hs&Hl&_).
  destruct (build_same_nodes _ _ Hb') as (Hs'&Hl'&_).
  split_and!.
  - eapply same_nodes_trans; [done|].
    eapply same_nodes_trans; [by apply first_pass_perm_nodes|].
    by apply same_nodes_sym.
  - rewrite Hl, Hl'. by apply first_pass_perm_length.
  - destruct (build_inv records) as (?&?&?&?&Hr&_).
    destruct (build_inv records') as (?&?&?&?&Hr'&_).
    rewrite Hr in Hb. rewrite Hr' in Hb'.
    injection Hb as <-. injection Hb' as <-. simpl.
    by rewrite (first_pass_perm_roots _ _ Hperm).
Qed.

Lemma build_perm_lineage records records' g g' k :
  NoDup (CrateDict.pubkey <$> records) → records ≡ₚ records' →
  build_supply_chain_graph records = Ok g →
  build_supply_chain_graph records' = Ok g' →
  lineage_of g k = lineage_of g' k.
Proof.
  intros Hnd Hperm Hb Hb'.
  destruct (build_perm_static _ _ _ _ Hnd Hperm Hb Hb') as (Hsame&Hlen&_).
  destruct (build_same_nodes _ _ Hb) as (_&_&Hkeys).
  destruct (build_same_nodes _ _ Hb') as (_&_&Hkeys').
  destruct (lineage_of g k) as [path|] eqn:Hp;
    destruct (lineage_of g' k) as [path'|] eqn:Hp'; [|exfalso..|done].
  - destruct (build_lineage_candidates _ _ _ _ Hb Hp) as (paths&Hrun&_&->).
    destruct (build_lineage_candidates _ _ _ _ Hb' Hp') as (paths'&Hrun'&_&->).
    rewrite Hlen, (trace_to_roots_same _ _ _ Hsame) in Hrun. congruence.
  - assert (is_Some (dict_get (crates g) k)) as Hk.
    { apply dict_get_Some_keys. rewrite <-Hkeys.
      apply dict_get_Some_keys. by eexists. }
    apply (same_nodes_is_Some _ _ _ Hsame) in Hk.
    apply dict_get_Some_keys in Hk. rewrite <-Hkeys' in Hk.
    apply dict_get_Some_keys in Hk as [? Hk]. unfold lineage_of in Hp'.
    congruence.
  - assert (is_Some (dict_get (crates g') k)) as Hk.
    { apply dict_get_Some_keys. rewrite <-Hkeys'.
      apply dict_get_Some_keys. by eexists. }
    apply (same_nodes_is_Some _ _ _ (same_nodes_sym _ _ Hsame)) in Hk.
    apply dict_get_Some_keys in Hk. rewrite <-Hkeys in Hk.
    apply dict_get_Some_keys in Hk as [? Hk]. unfold lineage_of in Hp.
    congruence.
Qed.

Lemma build_perm_depth records records' g g' k n :
  NoDup (CrateDict.pubkey <$> records) → records ≡ₚ records' →
  build_supply_chain_graph records = Ok g →
  build_supply_chain_graph records' = Ok g' →
  forward records k n →
  depth <$> node_of g k = depth <$> node_of g' k.
Proof.
  intros Hnd Hperm Hb Hb' Hfwd.
  assert (NoDup (CrateDict.pubkey <$> records')) as Hnd' by by rewrite <-Hperm.
  pose proof (forward_creach _ _ _ Hnd Hfwd) as Hreach.
  pose proof (forward_creach _ _ _ Hnd' (forward_perm _ _ _ _ Hperm Hfwd))
    as Hreach'.
  destruct (build_depth_reached _ _ _ _ Hb Hreach)
    as (node&m&->&Hd&_&Hm&Hmin).
  destruct (build_depth_reached _ _ _ _ Hb' Hreach')
    as (node'&m'&->&Hd'&_&Hm'&Hmin').
  simpl. f_equal. rewrite Hd, Hd'. f_equal. apply Nat.le_antisymm.
  - apply Hmin, forward_creach; [done|].
    apply forward_perm with records'; [done|]. by apply creach_forward.
  - apply Hmin', forward_creach; [done|].
    apply forward_perm with records; [done|]. by apply creach_forward.
Qed.

(** C4, as the code has it: with distinct keys, two builds from the same
    records in different orders have the same root set, the same record
    under every key, the same lineage for every key, and the same depth
    for every key the forward search reaches from a record with no
    parents.  The depth of a key it does not reach is computed from
    depths read in index order, and records that share a key are
    resolved by input order; neither is independent of the order. *)
Theorem build_order_independent (records records' : list CrateDict.t)
    (g g' : SupplyChainGraph) :
  NoDup (CrateDict.pubkey <$> records) → records ≡ₚ records' →
  build_supply_chain_graph records = Ok g →
  build_supply_chain_graph records' = Ok g' →
  (∀ k, k ∈ root_crates g ↔ k ∈ root_crates g') ∧
  (∀ k, static <$> node_of g k = static <$> node_of g' k) ∧
  (∀ k, lineage_of g k = lineage_of g' k) ∧
  (∀ k n, forward records k n →
          depth <$> node_of g k = depth <$> node_of g' k).
Proof.
  intros Hnd Hperm Hb Hb'.
  destruct (build_perm_static _ _ _ _ Hnd Hperm Hb Hb') as (Hsame&_&Hroots).
  split_and!.
  - intros k. by rewrite Hroots.
  - exact Hsame.
  - intros k. by apply build_perm_lineage with records records'.
  - intros k n Hfwd.
    by apply (build_perm_depth records records' g g' k n).
Qed.

Lemma build_order_independent_witness :
  ∃ g g',
    build_supply_chain_graph scenario_A = Ok g ∧
    build_supply_chain_graph scenario_A_reversed = Ok g' ∧
    lineage_of g "C" = lineage_of g' "C" ∧
    depth <$> node_of g "C" = depth <$> node_of g' "C".
Proof.
  do 2 eexists. split; [vm_compute; reflexivity|].
  split; [vm_compute; reflexivity|].
  match goal with
  | |- lineage_of ?g _ = lineage_of ?g' _ ∧ _ =>
      destruct (build_order_independent scenario_A scenario_A_reversed g g')
        as (_&_&Hlin&Hdepth)
  end.
  - apply (bool_decide_unpack _). by vm_compute.
  - symmetry. apply reverse_Permutation.
  - vm_compute; reflexivity.
  - vm_compute; reflexivity.
  - split; [apply Hlin|]. apply (Hdepth "C" 2).
    apply (forward_step _ (record "B" ["A"] ["C"])); [|set_solver..].
    apply (forward_step _ (record "A" [] ["B"])); [|set_solver..].
    apply (forward_root _ (record "A" [] ["B"])); [set_solver|done].
Defined.

(** The same three records in two orders, with distinct keys: the depth
    of C is 2 in one build and 1 in the other. *)
Lemma order_dependence_counterexample :
  ∃ g g',
    reverse unlinked_chain ≡ₚ unlinked_chain ∧
    build_supply_chain_graph (reverse unlinked_chain) = Ok g ∧
    build_supply_chain_graph unlinked_chain = Ok g' ∧
    depth <$> node_of g "C" = Some 2%Z ∧
    depth <$> node_of g' "C" = Some 1%Z.
Proof.
  do 2 eexists. split; [apply reverse_Permutation|].
  split_and!; vm_compute; reflexivity.
Qed.

(** ** Ties between candidates *)

(** C5, as the code has it: the lineage of a key is the first of the
    shortest candidates in the order in which the walk produces them,
    which follows each record's list of parents; keys are not compared.
    In the diamond A, B (parent A), C (parent A), D (parents X, Y), the
    lineage of D goes through whichever of B and C the record of D lists
    first, in whatever order the four records are given. *)
Theorem lineage_first_shortest :
  (∀ (records : list CrateDict.t) (g : SupplyChainGraph) (k : string)
     (path : list string),
     build_supply_chain_graph records = Ok g →
     lineage_of g k = Some path →
     ∃ l1 l2,
       trace_to_roots (S (length (crates g))) (crates g) k ∅ =
         Ok (l1 ++ path :: l2) ∧
       (∀ q, q ∈ l1 → length path < length q) ∧
       (∀ q, q ∈ l2 → length path ≤ length q)) ∧
  (∀ (x y : string) (records : list CrateDict.t),
     (x = "B" ∧ y = "C") ∨ (x = "C" ∧ y = "B") →
     records ≡ₚ scenario_B [x; y] →
     ∃ g, build_supply_chain_graph records = Ok g ∧
          lineage_of g "D" = Some ["D"; x; "A"]).
Proof.
  split.
  - intros records g k path Hbuild Hpath.
    destruct (build_lineage_candidates _ _ _ _ Hbuild Hpath)
      as (paths&Hrun&Hne&->).
    destruct paths as [|p ps]; [done|]. simpl.
    destruct (shortest_first_spec ps p) as (l1&l2&Heq&H1&H2).
    exists l1, l2. by rewrite <-Heq.
  - intros x y records Hxy Hperm.
    destruct (build_returns records) as [g Hb].
    exists g. split; [done|].
    assert (∃ g0, build_supply_chain_graph (scenario_B [x; y]) = Ok g0 ∧
                  lineage_of g0 "D" = Some ["D"; x; "A"] ∧
                  NoDup (CrateDict.pubkey <$> scenario_B [x; y]))
      as (g0&Hb0&Hlin0&Hnd).
    { destruct Hxy as [[-> ->]|[-> ->]]; eexists;
        (split_and!; [vm_compute; reflexivity..|]);
        apply (bool_decide_unpack _); by vm_compute. }
    rewrite <-Hlin0. symmetry.
    by apply (build_perm_lineage (scenario_B [x; y]) records).
Qed.

Lemma lineage_first_shortest_witness :
  ∃ g, build_supply_chain_graph (scenario_B ["C"; "B"]) = Ok g ∧
       lineage_of g "D" = Some ["D"; "C"; "A"] ∧
       ∃ l1 l2,
         trace_to_roots (S (length (crates g))) (crates g) "D" ∅ =
           Ok (l1 ++ ["D"; "C"; "A"] :: l2) ∧
         (∀ q, q ∈ l1 → length ["D"; "C"; "A"] < length q) ∧
         (∀ q, q ∈ l2 → length ["D"; "C"; "A"] ≤ length q).
Proof.
  eexists. split; [vm_compute; reflexivity|].
  split; [vm_compute; reflexivity|].
  eapply (proj1 lineage_first_shortest (scenario_B ["C"; "B"]) _ "D");
    vm_compute; reflexivity.
Defined.

(** With D listing its parents as C, B the two candidates have the same
    length, B is the lexicographically smaller key, and the lineage goes
    through C. *)
Lemma lexicographic_tie_break_counterexample :
  ∃ g, build_supply_chain_graph (scenario_B ["C"; "B"]) = Ok g ∧
       trace_to_roots (S (length (crates g))) (crates g) "D" ∅ =
         Ok [["D"; "C"; "A"]; ["D"; "B"; "A"]] ∧
       String.ltb "B" "C" = true ∧
       lineage_of g "D" = Some ["D"; "C"; "A"].
Proof. eexists. split_and!; vm_compute; reflexivity. Qed.

(** * Further properties of the builder *)

(** ** Depths are never negative, roots sit at depth 0 *)

Lemma fallback_step_nonneg visited cm roots key :
  (∀ k, 0 ≤ depth_of cm k)%Z →
  ∀ k, (0 ≤ depth_of (fallback_step visited (cm, roots) key).1 k)%Z.
Proof.
  intros Hcm k. unfold fallback_step.
  destruct (dict_get cm key) as [node|]; [|apply Hcm].
  destruct (decide (key ∈ visited)); [apply Hcm|].
  destruct (parent_crates node) as [|p ps]; simpl; rewrite depth_of_set;
    destruct (decide (key = k)); try apply Hcm; [done|].
  destruct (Z.leb_spec 0 (min_default (parent_depths cm node) (-1))); lia.
Qed.

Lemma fallback_fold_nonneg visited keys :
  ∀ cm roots, (∀ k, 0 ≤ depth_of cm k)%Z →
    ∀ k, (0 ≤ depth_of (foldl (fallback_step visited) (cm, roots) keys).1 k)%Z.
Proof.
  induction keys as [|key keys IH]; intros cm roots Hcm; cbn [foldl];
    [done|].
  pose proof (fallback_step_nonneg visited cm roots key Hcm) as Hstep.
  destruct (fallback_step visited (cm, roots) key) as [cm1 roots1].
  by apply IH.
Qed.

Lemma first_pass_depth_zero records k :
  depth_of (first_pass records).1 k = 0%Z.
Proof.
  unfold depth_of. rewrite first_pass_get.
  by destruct (last_with_key k records).
Qed.

(** X1: no node of a built graph has a negative depth. *)
Theorem depth_nonnegative (records : list CrateDict.t)
    (g : SupplyChainGraph) (k : string) (node : CrateNode) :
  build_supply_chain_graph records = Ok g →
  node_of g k = Some node →
  (0 ≤ depth node)%Z.
Proof.
  destruct (build_inv records) as (cm1&visited&cm2&lin&->&Hinv&_&Hfb&_).
  intros [= <-]. unfold node_of. simpl. intros Hk.
  assert (∀ k, 0 ≤ depth_of cm2 k)%Z as Hall.
  { pose proof (fallback_fold_nonneg visited (dict_keys cm1) cm1
                  (first_pass records).2) as Hfold.
    unfold fallback_pass in Hfb. rewrite Hfb in Hfold. apply Hfold.
    intros k'. destruct (decide (k' ∈ visited)) as [Hv|Hv].
    - destruct (inv_sound _ _ _ _ _ Hinv k' Hv) as (n&_&->). lia.
    - rewrite (inv_unvisited _ _ _ _ _ Hinv k' Hv).
      by rewrite first_pass_depth_zero. }
  specialize (Hall k). unfold depth_of in Hall. by rewrite Hk in Hall.
Qed.

Lemma depth_nonnegative_witness :
  ∃ g node, build_supply_chain_graph scenario_D = Ok g ∧
            node_of g "G" = Some node ∧ (0 ≤ depth node)%Z.
Proof.
  do 2 eexists. split_and!; [vm_compute; reflexivity..|].
  eapply (depth_nonnegative scenario_D _ "G"); vm_compute; reflexivity.
Defined.

Lemma build_root_depth records g k :
  build_supply_chain_graph records = Ok g → k ∈ root_crates g →
  ∃ node, node_of g k = Some node ∧ depth node = 0%Z.
Proof.
  pose proof (first_pass_wf records) as Hwf.
  destruct (build_inv records) as (cm1&visited&cm2&lin&->&Hinv&Hs&_&Hvis&_).
  intros [= <-]. unfold node_of. simpl. intros Hk%elem_of_elements.
  destruct (inv_seeds _ _ _ _ _ Hinv k Hk) as [Hv Hd].
  destruct (wf_roots_keys _ _ Hwf k Hk) as [node0 Hk0].
  destruct (strip_get_Some _ _ _ _ (eq_sym Hs) Hk0) as (node&Hnode&_).
  exists node. split; [done|].
  unfold depth_of in Hd. by rewrite <-(Hvis k Hv), Hnode in Hd.
Qed.

Lemma build_root_lineage records g k node :
  build_supply_chain_graph records = Ok g →
  node_of g k = Some node → is_root node = true →
  lineage_of g k = Some [k].
Proof.
  destruct (build_inv records) as (cm1&visited&cm2&lin&->&_&_&_&_&_&Hlin).
  intros [= <-]. unfold node_of, lineage_of. simpl. intros Hk Hroot.
  destruct (Hlin k) as (paths&Hrun&->).
  { apply dict_get_Some_keys. by eexists. }
  rewrite trace_to_roots_S, decide_False, Hk, Hroot in Hrun by set_solver.
  by injection Hrun as <-.
Qed.

(** X2: the root set and the root flags.  A node flagged as a root has
    its key in the root set, sits at depth 0 and is its own lineage;
    every key of the root set has a node at depth 0; and when the keys of
    the input are distinct, the root set holds exactly the keys of the
    nodes flagged as roots. *)
Theorem roots_and_flags (records : list CrateDict.t) (g : SupplyChainGraph) :
  build_supply_chain_graph records = Ok g →
  NoDup (root_crates g) ∧
  (∀ k node, node_of g k = Some node → is_root node = true →
     k ∈ root_crates g ∧ depth node = 0%Z ∧ lineage_of g k = Some [k]) ∧
  (∀ k, k ∈ root_crates g →
     ∃ node, node_of g k = Some node ∧ depth node = 0%Z) ∧
  (NoDup (CrateDict.pubkey <$> records) →
   ∀ k node, node_of g k = Some node →
     k ∈ root_crates g ↔ is_root node = true).
Proof.
  intros Hbuild.
  assert (∀ k node, node_of g k = Some node → is_root node = true →
                    k ∈ root_crates g) as Hflag.
  { intros k node Hk Hroot. apply build_root_key with records; [done|].
    by exists node. }
  split_and!.
  - destruct (build_inv records) as (?&?&?&?&Hrun&_).
    rewrite Hrun in Hbuild. injection Hbuild as <-. simpl.
    apply NoDup_elements.
  - intros k node Hk Hroot. split_and!; [by eapply Hflag| |].
    + destruct (build_root_depth _ _ k Hbuild) as (node'&Hk'&?);
        [by eapply Hflag|]. congruence.
    + by apply build_root_lineage with records node.
  - intros k Hk. by apply build_root_depth with records.
  - intros Hnd k node Hk. split; [|by apply Hflag].
    intros Hin.
    destruct (build_node_static _ _ _ _ Hbuild Hk) as (c&Hc&Hst).
    apply last_with_key_Some in Hc as [Hc <-].
    destruct (build_inv records) as (?&?&?&?&Hrun&_).
    rewrite Hrun in Hbuild. injection Hbuild as <-. simpl in Hin.
    apply elem_of_elements, first_pass_roots in Hin as (r&Hr&Hkey&Hp).
    assert (r = c) as ->.
    { pose proof (last_with_key_NoDup _ _ Hnd Hr) as H1.
      pose proof (last_with_key_NoDup _ _ Hnd Hc) as H2.
      rewrite Hkey in H1. congruence. }
    pose proof (f_equal is_root Hst) as Hroot. simpl in Hroot.
    by rewrite Hroot, Hp.
Qed.

Lemma roots_and_flags_witness :
  ∃ g, build_supply_chain_graph scenario_A = Ok g ∧
       ∀ k node, node_of g k = Some node →
         k ∈ root_crates g ↔ is_root node = true.
Proof.
  eexists. split; [vm_compute; reflexivity|].
  eapply (roots_and_flags scenario_A); [vm_compute; reflexivity|].
  exact scenario_A_NoDup.
Defined.

(** ** Depths along the child links *)

(** X3: with distinct keys and whatever the parent lists say, the depth
    of a key that some chain of child links joins to a record without
    parents is the length of the shortest such chain. *)
Theorem depth_is_shortest_forward (records : list CrateDict.t)
    (g : SupplyChainGraph) (k : string) (n : nat) :
  NoDup (CrateDict.pubkey <$> records) →
  build_supply_chain_graph records = Ok g →
  forward records k n →
  ∃ node m,
    node_of g k = Some node ∧ depth node = Z.of_nat m ∧
    forward records k m ∧ ∀ n', forward records k n' → m ≤ n'.
Proof.
  intros Hnd Hbuild Hfwd.
  destruct (build_depth_reached _ _ _ _ Hbuild (forward_creach _ _ _ Hnd Hfwd))
    as (node&m&Hk&Hd&_&Hm&Hmin).
  exists node, m. split_and!; [done..|by apply creach_forward|].
  intros n' Hn'. by apply Hmin, forward_creach.
Qed.

Lemma depth_is_shortest_forward_witness :
  ∃ g node,
    build_supply_chain_graph shortcut_chain = Ok g ∧
    node_of g "C" = Some node ∧ depth node = 1%Z.
Proof.
  assert (forward shortcut_chain "C" 2) as Hfwd.
  { apply (forward_step _ (record "B" ["A"] ["C"])); [|set_solver..].
    apply (forward_step _ (record "A" [] ["B"; "C"])); [|set_solver..].
    apply (forward_root _ (record "A" [] ["B"; "C"])); [set_solver|done]. }
  assert (NoDup (CrateDict.pubkey <$> shortcut_chain)) as Hnd
    by (apply (bool_decide_unpack _); by vm_compute).
  eexists. eexists. split; [vm_compute; reflexivity|].
  match goal with
  | |- node_of ?g _ = _ ∧ _ =>
      destruct (depth_is_shortest_forward shortcut_chain g "C" 2 Hnd
                  ltac:(vm_compute; reflexivity) Hfwd)
        as (node&m&Hnode&Hdepth&_)
  end.
  vm_compute in Hnode. injection Hnode as <-. split; reflexivity.
Defined.

(** ** Lineages never repeat a key *)

Lemma trace_to_roots_NoDup cm fuel :
  ∀ k vp paths, trace_to_roots fuel cm k vp = Ok paths →
    ∀ p, p ∈ paths → NoDup p ∧ ∀ x, x ∈ p → x ∉ vp.
Proof.
  induction fuel as [|fuel IH]; intros k vp paths Hrun; [done|].
  apply trace_to_roots_inv in Hrun.
  destruct Hrun as [Hv|Hv Hk|node Hv Hk Hroot|node rs Hv Hk Hr Hp Hrs Hnil
                   |node rs Hv Hk Hr Hp Hrs Hne].
  - by intros ? ?%elem_of_nil.
  - by intros ? ?%elem_of_nil.
  - intros p ->%list_elem_of_singleton. split; [apply NoDup_singleton|].
    by intros x ->%list_elem_of_singleton.
  - intros p ->%list_elem_of_singleton. split; [apply NoDup_singleton|].
    by intros x ->%list_elem_of_singleton.
  - intros p Hin.
    destruct (collected_elem_of _ _ _ _ _ Hrs Hin) as (q&r&Hq&Hrq&Hpr).
    apply extend_elem_of in Hpr as (pp&->&_&Hpp).
    destruct (IH _ _ _ Hrq pp Hpp) as [Hnd Hdisj]. split.
    + apply NoDup_cons. split; [|done]. intros Hk'.
      apply (Hdisj k Hk'). set_solver.
    + intros x [->|Hx]%elem_of_cons; [done|].
      specialize (Hdisj x Hx). set_solver.
Qed.

Lemma parent_chain_keys cm p l :
  parent_chain cm p → last p = Some l → is_Some (dict_get cm l) →
  ∀ x, x ∈ p → is_Some (dict_get cm x).
Proof.
  induction 1 as [k|k q rest node Hk Hq _ IH]; intros Hlast Hl x Hx.
  - apply list_elem_of_singleton in Hx as ->.
    simpl in Hlast. by injection Hlast as ->.
  - apply elem_of_cons in Hx as [->|Hx]; [by eexists|]. by apply IH.
Qed.

Lemma build_lineage_keys records g k path :
  build_supply_chain_graph records = Ok g → lineage_of g k = Some path →
  NoDup path ∧ ∀ x, x ∈ path → is_Some (node_of g x).
Proof.
  intros Hbuild Hpath.
  destruct (build_lineage_candidates _ _ _ _ Hbuild Hpath)
    as (paths&Hrun&Hne&->).
  pose proof (choose_lineage_elem_of k paths Hne) as Hin.
  split; [by apply (trace_to_roots_NoDup _ _ _ _ _ Hrun)|].
  destruct (trace_to_roots_paths _ _ _ _ _ Hrun) as [_ Hshape].
  destruct (Hshape _ Hin) as (rest&l&_&Hchain&Hlast&Hend).
  apply parent_chain_keys with l; [done..|].
  destruct Hend as [(node&?&_)|(node&?&_)]; by eexists.
Qed.

(** X4: a lineage never visits a key twice, every key on it is a key of
    the node map, and so it is never longer than the number of nodes. *)
Theorem lineage_no_repeats (records : list CrateDict.t)
    (g : SupplyChainGraph) (k : string) (path : list string) :
  build_supply_chain_graph records = Ok g →
  lineage_of g k = Some path →
  NoDup path ∧
  (∀ x, x ∈ path → is_Some (node_of g x)) ∧
  length path ≤ total_crates g.
Proof.
  intros Hbuild Hpath.
  destruct (build_lineage_keys _ _ _ _ Hbuild Hpath) as [Hnd Hkeys].
  split_and!; [done..|].
  destruct (build_inv records) as (?&?&cm2&?&Hrun&_).
  rewrite Hrun in Hbuild. injection Hbuild as <-.
  unfold node_of in Hkeys. simpl in *.
  rewrite <-dict_keys_length. apply submseteq_length, NoDup_submseteq; [done|].
  intros key Hkey. by apply dict_get_Some_keys, Hkeys.
Qed.

Lemma lineage_no_repeats_witness :
  ∃ g, build_supply_chain_graph scenario_D = Ok g ∧
       NoDup ["F"; "G"] ∧
       (∀ x, x ∈ ["F"; "G"] → is_Some (node_of g x)) ∧
       length ["F"; "G"] ≤ total_crates g.
Proof.
  eexists. split; [vm_compute; reflexivity|].
  eapply (lineage_no_repeats scenario_D _ "F"); vm_compute; reflexivity.
Defined.

(** ** The order in which the roots are enqueued *)

(** X5: [for root_pubkey in root_crates] iterates a set.  Whatever order
    the roots come in, seeding the queue and running the search to the
    end leaves the same node map and the same visited set. *)
Theorem seed_order_irrelevant (cm : dict CrateNode) (roots : gset string)
    (order order' : list string) :
  NoDup (dict_keys cm) →
  (∀ r, r ∈ roots → is_Some (dict_get cm r)) →
  NoDup order → list_to_set order = roots →
  NoDup order' → list_to_set order' = roots →
  ∃ seeded seeded' res,
    foldlM seed_step (cm, ∅, []) order = Ok seeded ∧
    foldlM seed_step (cm, ∅, []) order' = Ok seeded' ∧
    bfs (length cm) seeded = Ok res ∧
    bfs (length cm) seeded' = Ok res.
Proof.
  intros Hnd Hroots Hord Hset Hord' Hset'.
  destruct (second_pass_any_order cm roots order)
    as (s1&cm1&v1&Hs1&Hb1&Hinv1); [done..|].
  destruct (second_pass_any_order cm roots order')
    as (s2&cm2&v2&Hs2&Hb2&Hinv2); [done..|].
  destruct (bfs_inv_determined _ _ _ _ _ _ Hnd Hinv1 Hinv2) as [<- <-].
  by exists s1, s2, (cm1, v1).
Qed.

Lemma seed_order_irrelevant_witness :
  ∃ seeded seeded' res,
    foldlM seed_step ((first_pass two_roots).1, ∅, []) ["A"; "B"] =
      Ok seeded ∧
    foldlM seed_step ((first_pass two_roots).1, ∅, []) ["B"; "A"] =
      Ok seeded' ∧
    bfs (length (first_pass two_roots).1) seeded = Ok res ∧
    bfs (length (first_pass two_roots).1) seeded' = Ok res.
Proof.
  apply (seed_order_irrelevant _ {["A"; "B"]}).
  - apply (bool_decide_unpack _). by vm_compute.
  - intros r Hr. apply dict_get_Some_keys, first_pass_keys. set_solver.
  - apply (bool_decide_unpack _). by vm_compute.
  - set_solver.
  - apply (bool_decide_unpack _). by vm_compute.
  - set_solver.
Defined.

(** ** Lineages in an acyclic snapshot *)

Lemma choose_lineage_le k paths q :
  q ∈ paths → length (choose_lineage k paths) ≤ length q.
Proof.
  destruct paths as [|path paths]; [by intros ?%elem_of_nil|]. simpl.
  destruct (shortest_first_spec paths path) as (l1&l2&->&H1&H2).
  intros [Hq|[->|Hq]%elem_of_cons]%elem_of_app; [|done|by apply H2].
  specialize (H1 q Hq). lia.
Qed.

Section acyclic_walk.
Variables (records : list CrateDict.t) (cm : dict CrateNode).
Variable rank : string → nat.
Hypothesis Hnodes :
  ∀ k node, dict_get cm k = Some node →
    ∃ r, r ∈ records ∧ CrateDict.pubkey r = k ∧ static node = make_node r.
Hypothesis Hrank :
  ∀ r p, r ∈ records → p ∈ CrateDict.parent_crates r →
         rank p < rank (CrateDict.pubkey r).
Hypothesis Hpresent :
  ∀ r p, r ∈ records → p ∈ CrateDict.parent_crates r →
         is_Some (dict_get cm p).

(** Every candidate is a chain of parent links that ends at a root. *)
Lemma trace_to_roots_sound fuel :
  ∀ k vp paths,
    (∀ v, v ∈ vp → rank k < rank v) →
    trace_to_roots fuel cm k vp = Ok paths →
    ∀ p, p ∈ paths →
      ∃ n l, length p = S n ∧ hops records k n ∧
             last p = Some l ∧ root_key cm l.
Proof.
  induction fuel as [|fuel IH]; intros k vp paths Hvp Hrun; [done|].
  apply trace_to_roots_inv in Hrun.
  destruct Hrun as [Hv|Hv Hk|node Hv Hk Hroot|node rs Hv Hk Hr Hp Hrs Hnil
                   |node rs Hv Hk Hr Hp Hrs Hne].
  - by intros ? ?%elem_of_nil.
  - by intros ? ?%elem_of_nil.
  - intros p ->%list_elem_of_singleton.
    destruct (Hnodes k node Hk) as (r&Hrin&<-&Hst).
    pose proof (f_equal is_root Hst) as Hflag.
    pose proof (f_equal parent_crates Hst) as Hparents.
    simpl in Hflag, Hparents.
    assert (CrateDict.parent_crates r = []) as Hnil.
    { destruct Hroot as [Hroot|Hroot]; [|congruence].
      rewrite Hroot in Hflag. symmetry in Hflag.
      by apply Nat.eqb_eq, length_zero_iff_nil in Hflag. }
    exists 0, (CrateDict.pubkey r). split_and!; [done|by constructor|done|].
    exists node. split; [done|]. by rewrite Hflag, Hnil.
  - exfalso.
    destruct (Hnodes k node Hk) as (r&Hrin&<-&Hst).
    pose proof (f_equal parent_crates Hst) as Hparents. simpl in Hparents.
    destruct (parent_crates node) as [|q qs] eqn:Hqs; [done|].
    assert (q ∈ CrateDict.parent_crates r) as Hq
      by (rewrite <-Hparents; by left).
    destruct (collected_nil _ _ _ _ q Hrs Hnil) as (rq&Hrq&Hext); [by left|].
    destruct (trace_to_roots_paths _ _ _ _ _ Hrq) as [Hempty Hshape].
    destruct rq as [|pp rq].
    + destruct Hempty as [Hin|Habs]; [done| |].
      * pose proof (Hrank r q Hrin Hq) as Hlt.
        apply elem_of_union in Hin as [Hin|Hin%elem_of_singleton].
        -- specialize (Hvp q Hin). lia.
        -- rewrite Hin in Hlt. lia.
      * destruct (Hpresent r q Hrin Hq) as [? ?]. congruence.
    + destruct (Hshape pp) as (rest & ? & -> & _); [by left|].
      by specialize (extend_nil _ _ Hext (q :: rest) ltac:(by left)).
  - intros p Hin.
    destruct (Hnodes k node Hk) as (r&Hrin&<-&Hst).
    pose proof (f_equal parent_crates Hst) as Hparents. simpl in Hparents.
    destruct (collected_elem_of _ _ _ _ _ Hrs Hin) as (q&rq&Hq&Hrq&Hpr).
    apply extend_elem_of in Hpr as (pp&->&Hppne&Hpp).
    rewrite Hparents in Hq.
    pose proof (Hrank r q Hrin Hq) as Hlt.
    assert (∀ v, v ∈ vp ∪ {[CrateDict.pubkey r]} → rank q < rank v) as Hvp'.
    { intros v [Hv'| ->%elem_of_singleton]%elem_of_union; [|done].
      specialize (Hvp v Hv'). lia. }
    destruct (IH _ _ _ Hvp' Hrq pp Hpp) as (n&l&Hlen&Hhops&Hlast&Hl).
    exists (S n), l. split_and!; [simpl; by rewrite Hlen| |
                                  |done].
    + by apply hops_step with q.
    + destruct pp; [done|]. done.
Qed.

Hypothesis Hunique :
  ∀ r, r ∈ records →
    ∃ node, dict_get cm (CrateDict.pubkey r) = Some node ∧
            static node = make_node r.

(** Every chain of parent links to a root is among the candidates. *)
Lemma trace_to_roots_complete fuel :
  ∀ k vp paths,
    (∀ v, v ∈ vp → rank k < rank v) →
    trace_to_roots fuel cm k vp = Ok paths →
    ∀ n, hops records k n → ∃ p, p ∈ paths ∧ length p = S n.
Proof.
  induction fuel as [|fuel IH]; intros k vp paths Hvp Hrun n Hhops; [done|].
  assert (k ∉ vp) as Hk.
  { intros Hin. specialize (Hvp k Hin). lia. }
  rewrite trace_to_roots_S, decide_False in Hrun by done.
  destruct Hhops as [r Hr Hnil|r q n Hr Hq Hhops].
  - destruct (Hunique r Hr) as (node&Hnode&Hst). rewrite Hnode in Hrun.
    pose proof (f_equal is_root Hst) as Hflag. simpl in Hflag.
    rewrite Hflag, Hnil in Hrun. simpl in Hrun. injection Hrun as <-.
    exists [CrateDict.pubkey r]. split; [by left|done].
  - destruct (Hunique r Hr) as (node&Hnode&Hst). rewrite Hnode in Hrun.
    pose proof (f_equal is_root Hst) as Hflag.
    pose proof (f_equal parent_crates Hst) as Hparents.
    simpl in Hflag, Hparents.
    destruct (CrateDict.parent_crates r) as [|q0 qs] eqn:Hqs;
      [by apply elem_of_nil in Hq|].
    rewrite Hflag in Hrun. simpl in Hrun. rewrite Hparents in Hrun.
    rewrite <-Hqs in Hrun, Hq.
    destruct (foldlM _ [] (CrateDict.parent_crates r)) as [all|e] eqn:Hfold;
      [|done].
    apply foldlM_collect_inv in Hfold as (rs&Hrs&->). simpl in Hrun.
    destruct (collected_covers _ (extend (CrateDict.pubkey r)) _ _ q Hrs Hq)
      as (rq&Hrq&Hcover).
    assert (∀ v, v ∈ vp ∪ {[CrateDict.pubkey r]} → rank q < rank v) as Hvp'.
    { pose proof (Hrank r q Hr Hq) as Hlt.
      intros v [Hv'| ->%elem_of_singleton]%elem_of_union; [|done].
      specialize (Hvp v Hv'). lia. }
    destruct (IH q _ rq Hvp' Hrq n Hhops) as (pp&Hpp&Hlen).
    assert (CrateDict.pubkey r :: pp ∈
              concat (extend (CrateDict.pubkey r) <$> rs)) as Hp.
    { apply Hcover, extend_elem_of. exists pp.
      split_and!; [done| |done]. by destruct pp. }
    destruct (concat _) as [|x xs] eqn:Hc; [by apply elem_of_nil in Hp|].
    injection Hrun as <-. exists (CrateDict.pubkey r :: pp).
    split; [done|]. simpl. by rewrite Hlen.
Qed.

End acyclic_walk.

Lemma build_keys records g k :
  build_supply_chain_graph records = Ok g →
  is_Some (node_of g k) ↔ k ∈ CrateDict.pubkey <$> records.
Proof.
  destruct (build_inv records) as (?&?&cm2&?&->&_&Hs&_).
  intros [= <-]. unfold node_of. simpl.
  by rewrite dict_get_Some_keys, (strip_keys _ _ Hs), first_pass_keys.
Qed.

Lemma build_node_record records g k node :
  build_supply_chain_graph records = Ok g → node_of g k = Some node →
  ∃ r, r ∈ records ∧ CrateDict.pubkey r = k ∧ static node = make_node r.
Proof.
  intros Hbuild Hk.
  destruct (build_node_static _ _ _ _ Hbuild Hk) as (c&Hc&Hst).
  apply last_with_key_Some in Hc as [? ?]. by exists c.
Qed.

Lemma build_record_node records g r :
  NoDup (CrateDict.pubkey <$> records) →
  build_supply_chain_graph records = Ok g → r ∈ records →
  ∃ node, node_of g (CrateDict.pubkey r) = Some node ∧
          static node = make_node r.
Proof.
  intros Hnd Hbuild Hr.
  assert (is_Some (node_of g (CrateDict.pubkey r))) as [node Hk].
  { apply (build_keys _ _ _ Hbuild). by apply list_elem_of_fmap_2. }
  exists node. split; [done|].
  destruct (build_node_static _ _ _ _ Hbuild Hk) as (c&Hc&Hst).
  rewrite (last_with_key_NoDup _ _ Hnd Hr) in Hc. congruence.
Qed.

(** X6: in an acyclic snapshot with distinct keys in which every listed
    parent is present, the lineage of a key is a shortest chain of parent
    links from it to a record without parents: it has one key more than
    the least number of hops, and its last key is in the root set. *)
Theorem lineage_is_shortest_parent_path (records : list CrateDict.t)
    (g : SupplyChainGraph) (k : string) (path : list string) :
  NoDup (CrateDict.pubkey <$> records) →
  acyclic records → parents_present records →
  build_supply_chain_graph records = Ok g →
  lineage_of g k = Some path →
  ∃ n l, length path = S n ∧ hops records k n ∧
         (∀ m, hops records k m → n ≤ m) ∧
         last path = Some l ∧ l ∈ root_crates g.
Proof.
  intros Hnd [rank Hrank] Hpresent Hbuild Hpath.
  destruct (build_lineage_candidates _ _ _ _ Hbuild Hpath)
    as (paths&Hrun&Hne&->).
  assert (∀ r p, r ∈ records → p ∈ CrateDict.parent_crates r →
                 is_Some (dict_get (crates g) p)) as Hpresent'.
  { intros r p Hr Hp. apply (build_keys _ _ _ Hbuild). by eapply Hpresent. }
  destruct (trace_to_roots_sound records (crates g) rank
              (λ k0 node0, build_node_record records g k0 node0 Hbuild)
              Hrank Hpresent' _ k ∅ paths
              ltac:(set_solver) Hrun (choose_lineage k paths))
    as (n&l&Hlen&Hhops&Hlast&Hroot).
  { by apply choose_lineage_elem_of. }
  exists n, l. split_and!; [done..| |done|by eapply build_root_key].
  intros m Hm.
  destruct (trace_to_roots_complete records (crates g) rank Hrank
              (λ r, build_record_node records g r Hnd Hbuild) _ k ∅ paths
              ltac:(set_solver) Hrun m Hm) as (p&Hp&Hlenp).
  pose proof (choose_lineage_le k paths p Hp). lia.
Qed.

Lemma scenario_B_facts :
  NoDup (CrateDict.pubkey <$> scenario_B ["B"; "C"]) ∧
  acyclic (scenario_B ["B"; "C"]) ∧
  parents_present (scenario_B ["B"; "C"]) ∧
  children_consistent (scenario_B ["B"; "C"]).
Proof.
  split_and!.
  - apply (bool_decide_unpack _). by vm_compute.
  - exists (λ k, if decide (k = "A") then 0
                 else if decide (k = "D") then 2 else 1).
    intros r p Hr Hp. in_records Hr; simpl in Hp;
      repeat (apply elem_of_cons in Hp as [->|Hp]);
      try (by apply elem_of_nil in Hp); vm_compute; lia.
  - intros r p Hr Hp. in_records Hr; simpl in Hp;
      repeat (apply elem_of_cons in Hp as [->|Hp]);
      try (by apply elem_of_nil in Hp); set_solver.
  - intros r1 r2 Hr1 Hr2. in_records Hr1; in_records Hr2; simpl;
      split; intros H; repeat (apply elem_of_cons in H as [H|H]);
      try discriminate; try (by apply elem_of_nil in H); set_solver.
Qed.

Lemma lineage_is_shortest_parent_path_witness :
  ∃ g, build_supply_chain_graph (scenario_B ["B"; "C"]) = Ok g ∧
    ∃ n l, length ["D"; "B"; "A"] = S n ∧
           hops (scenario_B ["B"; "C"]) "D" n ∧
           (∀ m, hops (scenario_B ["B"; "C"]) "D" m → n ≤ m) ∧
           last ["D"; "B"; "A"] = Some l ∧ l ∈ root_crates g.
Proof.
  destruct scenario_B_facts as (Hnd&Hacyc&Hpresent&_).
  eexists. split; [vm_compute; reflexivity|].
  eapply (lineage_is_shortest_parent_path (scenario_B ["B"; "C"]) _ "D");
    [done..|vm_compute; reflexivity|vm_compute; reflexivity].
Defined.

Lemma build_depth_shortest_hops records g k node :
  NoDup (CrateDict.pubkey <$> records) →
  acyclic records → parents_present records →
  children_consistent records →
  build_supply_chain_graph records = Ok g →
  node_of g k = Some node →
  ∃ n, depth node = Z.of_nat n ∧ hops records k n ∧
       ∀ m, hops records k m → n ≤ m.
Proof.
  intros Hnd Hacyc Hpresent Hcons Hbuild Hk.
  destruct (build_node_record _ _ _ _ Hbuild Hk) as (c&Hc&<-&_).
  destruct (every_key_hops _ Hacyc Hpresent c Hc) as [n0 Hn0].
  apply (hops_forward _ _ _ Hcons), (forward_creach _ _ _ Hnd) in Hn0.
  destruct (build_depth_reached _ _ _ _ Hbuild Hn0)
    as (node'&n&Hk'&Hdepth&_&Hreach&Hmin).
  rewrite Hk in Hk'. injection Hk' as <-.
  exists n. split_and!; [done| |].
  - by apply forward_hops, creach_forward.
  - intros m Hm. by apply Hmin, forward_creach, hops_forward.
Qed.

(** X7: in an acyclic snapshot with distinct keys, every listed parent
    present and the child links mirroring the parent links, a lineage has
    exactly one key more than the depth of its key. *)
Theorem lineage_length_is_depth (records : list CrateDict.t)
    (g : SupplyChainGraph) (k : string) (node : CrateNode)
    (path : list string) :
  NoDup (CrateDict.pubkey <$> records) →
  acyclic records → parents_present records →
  children_consistent records →
  build_supply_chain_graph records = Ok g →
  node_of g k = Some node → lineage_of g k = Some path →
  Z.of_nat (length path) = (depth node + 1)%Z.
Proof.
  intros Hnd Hacyc Hpresent Hcons Hbuild Hk Hpath.
  destruct (build_depth_shortest_hops _ _ _ _ Hnd Hacyc Hpresent Hcons
              Hbuild Hk) as (n&Hd&Hn&Hmin).
  destruct (build_lineage_candidates _ _ _ _ Hbuild Hpath)
    as (paths&Hrun&Hne&->).
  destruct Hacyc as [rank Hrank].
  assert (∀ r p, r ∈ records → p ∈ CrateDict.parent_crates r →
                 is_Some (dict_get (crates g) p)) as Hpresent'.
  { intros r p Hr Hp. apply (build_keys _ _ _ Hbuild). by eapply Hpresent. }
  destruct (trace_to_roots_sound records (crates g) rank
              (λ k0 node0, build_node_record records g k0 node0 Hbuild)
              Hrank Hpresent' _ k ∅ paths
              ltac:(set_solver) Hrun (choose_lineage k paths))
    as (m&l&Hlen&Hhops&_).
  { by apply choose_lineage_elem_of. }
  destruct (trace_to_roots_complete records (crates g) rank Hrank
              (λ r, build_record_node records g r Hnd Hbuild) _ k ∅ paths
              ltac:(set_solver) Hrun n Hn) as (p&Hp&Hlenp).
  pose proof (choose_lineage_le k paths p Hp).
  specialize (Hmin m Hhops). lia.
Qed.

Lemma lineage_length_is_depth_witness :
  ∃ g node,
    build_supply_chain_graph (scenario_B ["B"; "C"]) = Ok g ∧
    node_of g "D" = Some node ∧
    Z.of_nat (length ["D"; "B"; "A"]) = (depth node + 1)%Z.
Proof.
  destruct scenario_B_facts as (Hnd&Hacyc&Hpresent&Hcons).
  do 2 eexists. split_and!; [vm_compute; reflexivity..|].
  eapply (lineage_length_is_depth (scenario_B ["B"; "C"]) _ "D");
    [done..|vm_compute; reflexivity|vm_compute; reflexivity
    |vm_compute; reflexivity].
Defined.

(** * The recursion limit *)








(** ** A chain deeper than the limit *)







(** * The endpoints *)




(** ** The history of one crate *)

Lemma get_crate_history_Respond key records resp :
  get_crate_history key (Fetched records) = Respond resp →
  ∃ g current path,
    build_supply_chain_graph records = Ok g ∧
    node_of g key = Some current ∧ lineage_of g key = Some path ∧
    CrateHistoryResponse.crate_pubkey resp = key ∧
    CrateHistoryResponse.current_crate resp = current ∧
    CrateHistoryResponse.lineage_path resp = path ∧
    CrateHistoryResponse.history resp =
      omap (dict_get (crates g)) (reverse path) ∧
    CrateHistoryResponse.root_crate resp =
      match CrateHistoryResponse.history resp with
      | first :: _ => first
      | [] => current
      end ∧
    CrateHistoryResponse.depth resp = depth current ∧
    CrateHistoryResponse.is_root resp = is_root current.
Proof.
  unfold get_crate_history. destruct records as [|r records]; [done|].
  destruct (build_supply_chain_graph (r :: records)) as [g|e] eqn:Hg;
    [|done].
  destruct (dict_get (crates g) key) as [current|] eqn:Hk; [|done].
  assert (is_Some (lineage_of g key)) as [path Hpath].
  { destruct (build_same_nodes _ _ Hg) as (_&_&Hkeys). unfold lineage_of.
    apply dict_get_Some_keys. rewrite Hkeys. apply dict_get_Some_keys.
    by eexists. }
  unfold lineage_of in Hpath. rewrite Hpath. simpl.
  intros [= <-]. exists g, current, path. by split_and!.
Qed.

Lemma build_node_pubkey records g k node :
  build_supply_chain_graph records = Ok g → node_of g k = Some node →
  pubkey node = k.
Proof.
  intros Hbuild Hk.
  destruct (build_node_record _ _ _ _ Hbuild Hk) as (r&_&<-&Hst).
  by apply (f_equal pubkey) in Hst.
Qed.

Lemma omap_all_present (cm : dict CrateNode) (l : list string) :
  (∀ x, x ∈ l → is_Some (dict_get cm x)) →
  Forall2 (λ x node, dict_get cm x = Some node) l (omap (dict_get cm) l).
Proof.
  induction l as [|x l IH]; intros Hall; csimpl; [constructor|].
  destruct (Hall x) as [node Hx]; [by left|]. rewrite Hx. simpl.
  constructor; [done|]. apply IH. intros ? ?. apply Hall. by right.
Qed.



(** X10: in a body of [get_crate_history] the lineage path starts with
    the requested key and never repeats a key; the history lists the
    nodes of the reversed path, none dropped, so it ends with the
    requested crate; and the root crate is the first node of the
    history. *)
Theorem get_crate_history_shape (key : string) (records : list CrateDict.t)
    (resp : CrateHistoryResponse.t) :
  get_crate_history key (Fetched records) = Respond resp →
  pubkey (CrateHistoryResponse.current_crate resp) = key ∧
  (∃ rest, CrateHistoryResponse.lineage_path resp = key :: rest) ∧
  NoDup (CrateHistoryResponse.lineage_path resp) ∧
  pubkey <$> CrateHistoryResponse.history resp =
    reverse (CrateHistoryResponse.lineage_path resp) ∧
  last (CrateHistoryResponse.history resp) =
    Some (CrateHistoryResponse.current_crate resp) ∧
  head (CrateHistoryResponse.history resp) =
    Some (CrateHistoryResponse.root_crate resp).
Proof.
  intros (g&current&path&Hg&Hk&Hpath&_&->&->&Hhist&Hroot&_)
           %get_crate_history_Respond.
  destruct (build_lineage_keys _ _ _ _ Hg Hpath) as [Hnd Hkeys].
  destruct (build_lineage_candidates _ _ _ _ Hg Hpath) as (paths&Hrun&Hne&Hch).
  destruct (trace_to_roots_paths _ _ _ _ _ Hrun) as [_ Hshape].
  destruct (Hshape path) as (rest&_&Hrest&_).
  { rewrite Hch. by apply choose_lineage_elem_of. }
  pose proof (omap_all_present (crates g) (reverse path)) as Hall.
  rewrite <-Hhist in Hall.
  assert (Forall2 (λ x node, dict_get (crates g) x = Some node)
            (reverse path) (CrateHistoryResponse.history resp)) as Hnodes.
  { apply Hall. intros x Hx. rewrite elem_of_reverse in Hx. by apply Hkeys. }
  clear Hall.
  split_and!; [by eapply build_node_pubkey|by exists rest|done| | |].
  - clear -Hnodes Hg. induction Hnodes as [|x node l nodes Hx _ IH];
      csimpl; [done|].
    by rewrite IH, (build_node_pubkey _ _ _ _ Hg Hx).
  - rewrite Hrest, reverse_cons in Hnodes.
    apply Forall2_app_inv_l in Hnodes as (nodes1&nodes2&_&Hlast&->).
    apply Forall2_cons_inv_l in Hlast as (node&?&Hnode&->%Forall2_nil_inv_l&->).
    rewrite last_snoc. unfold node_of in Hk. congruence.
  - rewrite Hroot. rewrite Hrest, reverse_cons in Hnodes.
    destruct (CrateHistoryResponse.history resp) as [|first nodes]; [|done].
    apply Forall2_nil_inv_r in Hnodes. by destruct (reverse rest).
Qed.

Lemma get_crate_history_shape_witness :
  ∃ resp,
    get_crate_history "C" (Fetched scenario_A) = Respond resp ∧
    pubkey <$> CrateHistoryResponse.history resp = ["A"; "B"; "C"] ∧
    CrateHistoryResponse.lineage_path resp = ["C"; "B"; "A"].
Proof.
  eexists. split; [vm_compute; reflexivity|].
  match goal with
  | |- pubkey <$> CrateHistoryResponse.history ?resp = _ ∧ _ =>
      destruct (get_crate_history_shape "C" scenario_A resp
                  ltac:(vm_compute; reflexivity)) as (_&_&_&Hhist&_)
  end.
  split; [exact Hhist|reflexivity].
Defined.

Lemma get_crate_history_nodes key records resp :
  get_crate_history key (Fetched records) = Respond resp →
  ∃ g current path,
    build_supply_chain_graph records = Ok g ∧
    node_of g key = Some current ∧ lineage_of g key = Some path ∧
    CrateHistoryResponse.depth resp = depth current ∧
    Forall2 (λ x node, node_of g x = Some node)
      (reverse path) (CrateHistoryResponse.history resp) ∧
    head (CrateHistoryResponse.history resp) =
      Some (CrateHistoryResponse.root_crate resp).
Proof.
  intros (g&current&path&Hg&Hk&Hpath&_&_&_&Hhist&Hroot&Hdepth&_)
           %get_crate_history_Respond.
  exists g, current, path. split_and!; [done..| |].
  - rewrite Hhist. apply omap_all_present. intros x Hx.
    rewrite elem_of_reverse in Hx.
    by apply (build_lineage_keys _ _ _ _ Hg Hpath).
  - rewrite Hroot.
    destruct (CrateHistoryResponse.history resp) as [|first nodes] eqn:Hh;
      [|done]. exfalso.
    destruct (build_lineage_candidates _ _ _ _ Hg Hpath)
      as (paths&Hrun&Hne&Hch).
    destruct (trace_to_roots_paths _ _ _ _ _ Hrun) as [_ Hshape].
    destruct (Hshape path) as (rest&_&->&_).
    { rewrite Hch. by apply choose_lineage_elem_of. }
    destruct (build_lineage_keys _ _ _ _ Hg Hpath) as [_ Hkeys].
    rewrite reverse_cons, omap_app in Hhist. csimpl in Hhist.
    destruct (Hkeys key) as [node Hnode]; [by left|].
    unfold node_of in Hnode. rewrite Hnode in Hhist. simpl in Hhist.
    by destruct (omap (dict_get (crates g)) (reverse rest)).
Qed.

(** X11: for an acyclic snapshot in which every listed parent is
    present, the history served by [get_crate_history] starts at a
    record without parents: the root crate of the body is flagged as a
    root, lists no parents and sits at depth 0.  If moreover the keys are
    distinct and the child links mirror the parent links, the history has
    one entry more than the depth reported in the body. *)
Theorem get_crate_history_reaches_root (key : string)
    (records : list CrateDict.t) (resp : CrateHistoryResponse.t) :
  acyclic records → parents_present records →
  get_crate_history key (Fetched records) = Respond resp →
  is_root (CrateHistoryResponse.root_crate resp) = true ∧
  parent_crates (CrateHistoryResponse.root_crate resp) = [] ∧
  depth (CrateHistoryResponse.root_crate resp) = 0%Z ∧
  (NoDup (CrateDict.pubkey <$> records) → children_consistent records →
   Z.of_nat (length (CrateHistoryResponse.history resp)) =
     (CrateHistoryResponse.depth resp + 1)%Z).
Proof.
  intros Hacyc Hpresent
    (g&current&path&Hg&Hk&Hpath&Hdepth&Hnodes&Hhead)%get_crate_history_nodes.
  assert (∃ l, last path = Some l ∧ root_key (crates g) l) as (l&Hlast&Hl).
  { destruct Hacyc as [rank Hrank].
    destruct (build_lineage_candidates _ _ _ _ Hg Hpath)
      as (paths&Hrun&Hne&->).
    assert (∀ r p, r ∈ records → p ∈ CrateDict.parent_crates r →
                   is_Some (dict_get (crates g) p)) as Hpresent'.
    { intros r p Hr Hp. apply (build_keys _ _ _ Hg). by eapply Hpresent. }
    destruct (trace_to_roots_sound records (crates g) rank
                (λ k0 node0, build_node_record records g k0 node0 Hg)
                Hrank Hpresent' _ key ∅ paths
                ltac:(set_solver) Hrun (choose_lineage key paths))
      as (n&l&_&_&Hlast&Hroot).
    { by apply choose_lineage_elem_of. }
    by exists l. }
  destruct Hl as (nl&Hnl&Hflag).
  assert (CrateHistoryResponse.root_crate resp = nl) as ->.
  { rewrite <-head_reverse in Hlast.
    destruct (reverse path) as [|x xs]; [done|]. injection Hlast as ->.
    apply Forall2_cons_inv_l in Hnodes as (first&nodes&Hfirst&_&Hh).
    rewrite Hh in Hhead. injection Hhead as <-.
    unfold node_of in Hfirst. congruence. }
  split_and!.
  - done.
  - destruct (build_node_record _ _ _ _ Hg Hnl) as (r&_&_&Hst).
    pose proof (f_equal is_root Hst) as Hr.
    pose proof (f_equal parent_crates Hst) as Hp. simpl in Hr, Hp.
    rewrite Hflag in Hr. symmetry in Hr.
    apply Nat.eqb_eq, length_zero_iff_nil in Hr. congruence.
  - destruct (build_root_depth records g l Hg) as (node&Hnode&Hd).
    { apply build_root_key with records; [done|]. by exists nl. }
    unfold node_of in Hnode. congruence.
  - intros Hnd Hcons.
    rewrite <-(Forall2_length _ _ _ Hnodes), length_reverse, Hdepth.
    destruct (build_depth_shortest_hops _ _ _ _ Hnd Hacyc Hpresent Hcons
                Hg Hk) as (n&Hd&Hn&Hmin).
    destruct (build_lineage_candidates _ _ _ _ Hg Hpath)
      as (paths&Hrun&Hne&->).
    destruct Hacyc as [rank Hrank].
    assert (∀ r p, r ∈ records → p ∈ CrateDict.parent_crates r →
                   is_Some (dict_get (crates g) p)) as Hpresent'.
    { intros r p Hr Hp. apply (build_keys _ _ _ Hg). by eapply Hpresent. }
    destruct (trace_to_roots_sound records (crates g) rank
                (λ k0 node0, build_node_record records g k0 node0 Hg)
                Hrank Hpresent' _ key ∅ paths
                ltac:(set_solver) Hrun (choose_lineage key paths))
      as (m&l'&Hlen&Hhops&_).
    { by apply choose_lineage_elem_of. }
    destruct (trace_to_roots_complete records (crates g) rank Hrank
                (λ r, build_record_node records g r Hnd Hg) _ key ∅ paths
                ltac:(set_solver) Hrun n Hn) as (p&Hp&Hlenp).
    pose proof (choose_lineage_le key paths p Hp).
    specialize (Hmin m Hhops). lia.
Qed.

Lemma get_crate_history_reaches_root_witness :
  ∃ resp,
    get_crate_history "D" (Fetched (scenario_B ["B"; "C"])) = Respond resp ∧
    is_root (CrateHistoryResponse.root_crate resp) = true ∧
    Z.of_nat (length (CrateHistoryResponse.history resp)) =
      (CrateHistoryResponse.depth resp + 1)%Z.
Proof.
  destruct scenario_B_facts as (Hnd&Hacyc&Hpresent&Hcons).
  eexists. split; [vm_compute; reflexivity|].
  match goal with
  | |- is_root (CrateHistoryResponse.root_crate ?resp) = _ ∧ _ =>
      destruct (get_crate_history_reaches_root "D" (scenario_B ["B"; "C"])
                  resp Hacyc Hpresent ltac:(vm_compute; reflexivity))
        as (Hroot&_&_&Hlen)
  end.
  split; [exact Hroot|exact (Hlen Hnd Hcons)].
Defined.

(** * Records the forward search does not reach *)

Lemma min_default_nonneg (xs : list Z) (d : Z) :
  xs ≠ [] → (∀ x, x ∈ xs → 0 ≤ x)%Z → (0 ≤ min_default xs d)%Z.
Proof.
  destruct xs as [|x xs]; [done|]. intros _ Hall. simpl.
  assert (0 ≤ x)%Z as Hx by (apply Hall; by left).
  assert (∀ y, y ∈ xs → 0 ≤ y)%Z as Hxs by (intros ? ?; apply Hall; by right).
  clear Hall. revert x Hx. induction xs as [|y xs IH]; intros x Hx; [done|].
  cbn [foldl]. apply IH.
  - intros ? ?. apply Hxs. by right.
  - specialize (Hxs y ltac:(by left)). lia.
Qed.

Lemma parent_depths_nil cm node :
  parent_depths cm node = [] ↔
  ∀ p, p ∈ parent_crates node → dict_get cm p = None.
Proof.
  split; [|apply parent_depths_absent].
  unfold parent_depths. induction (parent_crates node) as [|q qs IH];
    csimpl; [by intros _ ? ?%elem_of_nil|].
  destruct (dict_get cm q) as [nq|] eqn:Hq; simpl; [done|].
  intros Hnil p [->|Hp]%elem_of_cons; [done|]. by apply IH.
Qed.

Lemma parent_depths_nonneg cm node :
  (∀ k, 0 ≤ depth_of cm k)%Z → ∀ x, x ∈ parent_depths cm node → (0 ≤ x)%Z.
Proof.
  intros Hcm x. unfold parent_depths. rewrite list_elem_of_omap.
  intros (p&_&Hp). specialize (Hcm p). unfold depth_of in Hcm.
  destruct (dict_get cm p); simpl in *; [|done]. by injection Hp as <-.
Qed.

Lemma fallback_unvisited_depth cm visited roots k node :
  roots_ok cm roots → NoDup (dict_keys cm) →
  (∀ k, 0 ≤ depth_of cm k)%Z →
  dict_get cm k = Some node → k ∉ visited → parent_crates node ≠ [] →
  depth_of (fallback_pass cm visited roots).1 k = 0%Z ↔
  ∀ p, p ∈ parent_crates node → dict_get cm p = None.
Proof.
  intros Hok Hnd Hpos Hk Hv Hps. unfold fallback_pass.
  assert (k ∈ dict_keys cm) as (ks1&ks2&Hks)%list_elem_of_split
    by (apply dict_get_Some_keys; by eexists).
  rewrite Hks in Hnd |- *. apply NoDup_app in Hnd as (_&Hk1&[Hk2 _]%NoDup_cons).
  rewrite foldl_app. cbn [foldl].
  pose proof (fallback_fold_nonneg visited ks1 cm roots Hpos) as Hpos1.
  destruct (fallback_fold_spec visited ks1 cm roots Hok) as (cm1&Hrun1&Hs1&Hne1&_).
  rewrite Hrun1 in Hpos1 |- *. simpl in Hpos1.
  assert (same_nodes cm1 cm) as Hsame by by apply same_nodes_strip.
  assert (roots_ok cm1 roots) as Hok1
    by (apply roots_ok_same with cm; [by apply same_nodes_sym|done]).
  assert (dict_get cm1 k = Some node) as Hk'.
  { rewrite Hne1; [done|]. intros Hin. apply (Hk1 k); [done|by left]. }
  destruct (fallback_step_spec visited cm1 roots k Hok1) as (cm2&Hstep&Hs2&_).
  rewrite Hstep.
  destruct (fallback_fold_spec visited ks2 cm2 roots) as (cm'&->&_&Hne2&_).
  { apply roots_ok_same with cm1; [|done].
    by apply same_nodes_sym, same_nodes_strip. }
  simpl. unfold depth_of at 1. rewrite Hne2 by done.
  unfold fallback_step in Hstep. rewrite Hk' in Hstep.
  rewrite decide_False in Hstep by done.
  destruct (parent_crates node) as [|q qs] eqn:Hq; [done|].
  injection Hstep as <-. rewrite dict_get_set_eq. simpl.
  assert (parent_depths cm1 node = [] ↔
          ∀ p, p ∈ q :: qs → dict_get cm p = None) as Hnil.
  { rewrite parent_depths_nil, Hq. split; intros H p Hp.
    - apply same_nodes_None with cm1; [done|]. by apply H.
    - apply same_nodes_None with cm; [by apply same_nodes_sym|]. by apply H. }
  rewrite <-Hnil.
  destruct (parent_depths cm1 node) as [|x xs] eqn:Hpd; [done|].
  pose proof (min_default_nonneg (x :: xs) (-1) ltac:(done)) as Hmin.
  rewrite <-Hpd in Hmin.
  specialize (Hmin (parent_depths_nonneg cm1 node Hpos1)).
  rewrite Hpd in Hmin.
  destruct (Z.leb_spec 0 (min_default (x :: xs) (-1))); split; try done; lia.
Qed.

(** X12: with distinct keys, a record that no chain of child links joins
    to a record without parents gets depth 0 exactly when none of its
    listed parents is in the snapshot, and a depth of at least 1
    otherwise. *)
Theorem unreached_depth (records : list CrateDict.t) (g : SupplyChainGraph)
    (r : CrateDict.t) (node : CrateNode) :
  NoDup (CrateDict.pubkey <$> records) →
  build_supply_chain_graph records = Ok g →
  r ∈ records → node_of g (CrateDict.pubkey r) = Some node →
  (∀ n, ¬ forward records (CrateDict.pubkey r) n) →
  (depth node = 0%Z ↔
   ∀ p, p ∈ CrateDict.parent_crates r → p ∉ CrateDict.pubkey <$> records) ∧
  ((∃ p, p ∈ CrateDict.parent_crates r ∧ p ∈ CrateDict.pubkey <$> records) →
   (1 ≤ depth node)%Z).
Proof.
  intros Hnd Hbuild Hr Hnode Hunreached.
  pose proof (first_pass_wf records) as Hwf.
  destruct (build_record_node _ _ _ Hnd Hbuild Hr) as (node'&Hnode'&Hst).
  rewrite Hnode in Hnode'. injection Hnode' as <-.
  pose proof (f_equal parent_crates Hst) as Hparents. simpl in Hparents.
  destruct (build_inv records)
    as (cm1&visited&cm2&lin&Hrun&Hinv&Hs&Hfb&Hvis&_).
  rewrite Hrun in Hbuild. injection Hbuild as <-.
  unfold node_of in Hnode. simpl in Hnode.
  set (k := CrateDict.pubkey r) in *.
  pose proof (inv_strip _ _ _ _ _ Hinv) as Hs1.
  assert (k ∉ visited) as Hv.
  { intros Hv. destruct (inv_sound _ _ _ _ _ Hinv k Hv) as (n&Hreach&_).
    by apply (Hunreached n), creach_forward. }
  assert (∀ k, 0 ≤ depth_of cm1 k)%Z as Hpos.
  { intros k'. destruct (decide (k' ∈ visited)) as [Hv'|Hv'].
    - destruct (inv_sound _ _ _ _ _ Hinv k' Hv') as (n&_&->). lia.
    - rewrite (inv_unvisited _ _ _ _ _ Hinv k' Hv').
      by rewrite first_pass_depth_zero. }
  assert (strip cm2 = strip cm1) as Hs2 by congruence.
  destruct (strip_get_Some _ _ _ _ Hs2 Hnode) as (node1&Hk1&Hst1).
  assert (parent_crates node1 = CrateDict.parent_crates r) as Hp1.
  { by rewrite (static_parent_crates _ _ Hst1). }
  assert (parent_crates node1 ≠ []) as Hne.
  { rewrite Hp1. intros Hnil. apply (Hunreached 0). by constructor. }
  assert (depth_of cm2 k = 0%Z ↔
          ∀ p, p ∈ parent_crates node1 → dict_get cm1 p = None) as Hdepth.
  { pose proof (fallback_unvisited_depth cm1 visited (first_pass records).2
                  k node1) as H.
    rewrite Hfb in H. apply H; try done.
    - apply roots_ok_same with (first_pass records).1;
        [|by apply roots_ok_wf].
      by apply same_nodes_sym, same_nodes_strip.
    - rewrite (strip_keys _ _ Hs1). apply Hwf. }
  assert (0 ≤ depth_of cm2 k)%Z as Hnonneg.
  { pose proof (fallback_fold_nonneg visited (dict_keys cm1) cm1
                  (first_pass records).2 Hpos k) as Hall.
    unfold fallback_pass in Hfb. by rewrite Hfb in Hall. }
  unfold depth_of in Hdepth, Hnonneg. rewrite Hnode in Hdepth, Hnonneg.
  simpl in Hdepth, Hnonneg.
  assert (depth node = 0%Z ↔
          ∀ p, p ∈ CrateDict.parent_crates r →
               p ∉ CrateDict.pubkey <$> records) as Hiff.
  { rewrite Hdepth, Hp1. split; intros H p Hp.
    - rewrite <-first_pass_keys, <-(strip_keys _ _ Hs1).
      apply dict_get_None_keys. by apply H.
    - apply dict_get_None_keys. rewrite (strip_keys _ _ Hs1).
      rewrite first_pass_keys. by apply H. }
  split; [done|]. intros (p&Hp&Hin).
  assert (depth node ≠ 0%Z); [|lia].
  intros Hzero. by apply (proj1 Hiff Hzero p Hp).
Qed.

Lemma unreached_depth_witness :
  ∃ g node,
    build_supply_chain_graph scenario_C = Ok g ∧
    node_of g "E" = Some node ∧ depth node = 0%Z.
Proof.
  eexists. eexists. split; [vm_compute; reflexivity|].
  match goal with
  | |- node_of ?g _ = Some ?node ∧ _ =>
      assert (node_of g "E" = Some node) as Hnode
        by (vm_compute; reflexivity);
      destruct (unreached_depth scenario_C g (record "E" ["missing-key"] [])
                  node) as [Hzero _]
  end.
  - apply (bool_decide_unpack _). by vm_compute.
  - vm_compute; reflexivity.
  - set_solver.
  - exact Hnode.
  - intros n Hf.
    inversion Hf as [r Hr Hp Hk|r c m Hm Hr Hc Hin Hk]; subst;
      in_records Hr; try discriminate. by apply elem_of_nil in Hc.
  - split; [exact Hnode|]. apply Hzero.
    intros p ->%list_elem_of_singleton [H|H]%elem_of_cons;
      [discriminate|by apply elem_of_nil in H].
Defined.
